(** * SQLTools Cloud Spanner driver: the statement splitter and classifier

    A shallow embedding of [SpannerQueryParser] (src/ls/parser.ts, kept in
    the repository in two revisions) and the properties of its statement
    splitter [parse] and statement classifier [getStatementType].

    JavaScript strings are sequences of UTF-16 code units.  The parser
    iterates over [Array.from(query)], whose elements are the code points of
    the string (a surrogate pair is one element), and cuts the text with
    [String.prototype.substring], which counts code units.  Both views are
    modelled, because the splitter mixes them. *)

From Stdlib Require Import String Ascii.
From Stdlib Require Import List NArith Arith Bool Lia.
Import ListNotations.

Set Implicit Arguments.

(** ** JavaScript strings *)

(** A string is the list of its UTF-16 code units. *)
Definition jsstring := list N.

(** Basic Latin text written as a Rocq string literal. *)
Definition js (s : string) : jsstring :=
  List.map N_of_ascii (list_ascii_of_string s).

Fixpoint str_eqb (a b : jsstring) : bool :=
  match a, b with
  | [], [] => true
  | x :: a', y :: b' => N.eqb x y && str_eqb a' b'
  | _, _ => false
  end.

(** [a == b] where [b] may be [null]. *)
Definition opt_eqb (a : jsstring) (b : option jsstring) : bool :=
  match b with
  | Some b' => str_eqb a b'
  | None => false
  end.

Definition isHighSurrogate (u : N) : bool := (55296 <=? u)%N && (u <=? 56319)%N.
Definition isLowSurrogate (u : N) : bool := (56320 <=? u)%N && (u <=? 57343)%N.

(** [Array.from(s)]: the string iterator yields one element per code point;
    a high surrogate followed by a low surrogate is a single two-unit
    element, every other code unit is an element of its own. *)
Fixpoint Array_from (s : jsstring) : list jsstring :=
  match s with
  | [] => []
  | u :: s' =>
      match s' with
      | v :: s'' =>
          if isHighSurrogate u && isLowSurrogate v
          then [u; v] :: Array_from s''
          else [u] :: Array_from s'
      | [] => [[u]]
      end
  end.

(** ECMAScript WhiteSpace and LineTerminator code points, the ones that
    [String.prototype.trim] strips. *)
Definition isWhiteSpace (u : N) : bool :=
  ((9 <=? u) && (u <=? 13) || (u =? 32) || (u =? 160) || (u =? 5760)
   || (8192 <=? u) && (u <=? 8202) || (u =? 8232) || (u =? 8233)
   || (u =? 8239) || (u =? 8287) || (u =? 12288) || (u =? 65279))%N.

Fixpoint trimStart (s : jsstring) : jsstring :=
  match s with
  | u :: s' => if isWhiteSpace u then trimStart s' else s
  | [] => []
  end.

Definition trimEnd (s : jsstring) : jsstring := rev (trimStart (rev s)).

Definition trim (s : jsstring) : jsstring := trimEnd (trimStart s).

(** [s.trim() == ''] *)
Definition isBlank (s : jsstring) : bool :=
  match trim s with [] => true | _ :: _ => false end.

(** [s.substring(start, end)]: both indices are clamped to the length and
    swapped when out of order. *)
Definition substring (s : jsstring) (start end_ : nat) : jsstring :=
  let a := Nat.min start (length s) in
  let b := Nat.min end_ (length s) in
  firstn (Nat.max a b - Nat.min a b) (skipn (Nat.min a b) s).

(** [s.substring(start)] *)
Definition substringFrom (s : jsstring) (start : nat) : jsstring :=
  skipn start s.

Fixpoint startsWith (s prefix : jsstring) : bool :=
  match prefix, s with
  | [], _ => true
  | p :: prefix', u :: s' => N.eqb u p && startsWith s' prefix'
  | _ :: _, [] => false
  end.

(** The one-character strings the scanner compares against. *)
Definition QUOTE : jsstring := [39%N].
Definition DQUOTE : jsstring := [34%N].
Definition BACKTICK : jsstring := [96%N].
Definition HASH : jsstring := [35%N].
Definition SPACE : jsstring := [32%N].
Definition DASH : jsstring := [45%N].
Definition SLASH : jsstring := [47%N].
Definition STAR : jsstring := [42%N].
Definition NEWLINE : jsstring := [10%N].
Definition BACKSLASH : jsstring := [92%N].
Definition SEMICOLON : jsstring := [59%N].

(** ** The loop shared by the scanners

    Both scanners are [for (index = 0; index < charArray.length; index++)]
    loops whose body may [continue], advance [index] past further elements
    before continuing, or leave the loop.  [previousChar] is
    [charArray[index - 1]] ([null] at index 0), [nextChar] is
    [charArray[index + 1]] ([null] at the last index). *)

Inductive Outcome (St R : Type) : Type :=
| Continue (st : St) (skip : nat)   (* [index += skip; continue] *)
| Leave (r : R).                    (* [break] or [return] *)

Arguments Continue {St R} st skip.
Arguments Leave {St R} r.

Section ForLoop.
Variables St R : Type.

(** The body receives [previousChar], [char], the elements after [char],
    the index and the state. *)
Variable body : option jsstring -> jsstring -> list jsstring -> nat -> St -> Outcome St R.

(** [forLoop skip previousChar index st rest]: [rest] is the part of
    [charArray] from [index] on, of which the first [skip] elements are
    stepped over.  The result is the state in which the loop ran off the
    end of the array, or what the body left the loop with. *)
Fixpoint forLoop (skip : nat) (previousChar : option jsstring) (index : nat)
         (st : St) (rest : list jsstring) : St + R :=
  match rest with
  | [] => inl st
  | char :: tl =>
      match skip with
      | S k => forLoop k (Some char) (S index) st tl
      | O =>
          match body previousChar char tl index st with
          | Continue st' k => forLoop k (Some char) (S index) st' tl
          | Leave r => inr r
          end
      end
  end.

(** The states in which the body is entered, in order. *)
Fixpoint iterations (skip : nat) (previousChar : option jsstring) (index : nat)
         (st : St) (rest : list jsstring) : list St :=
  match rest with
  | [] => []
  | char :: tl =>
      match skip with
      | S k => iterations k (Some char) (S index) st tl
      | O =>
          st :: match body previousChar char tl index st with
                | Continue st' k => iterations k (Some char) (S index) st' tl
                | Leave _ => []
                end
      end
  end.
End ForLoop.

(** ** The splitter: [getStatements], [getQueryParts], [parse] *)

Record ScanState : Type := mkScan {
  isInComment : bool;
  commentChar : option jsstring;
  isInString : bool;
  stringChar : option jsstring;
  isInTripleQuotes : bool
}.

Definition scanInit : ScanState := mkScan false None false None false.

(** [(index + 2) < charArray.length && charArray[index + 1] == char &&
    charArray[index + 2] == char], on the elements after [char]. *)
Definition twoMore (char : jsstring) (tl : list jsstring) : bool :=
  match tl with
  | c1 :: c2 :: _ => str_eqb c1 char && str_eqb c2 char
  | _ => false
  end.

Definition isQuoteChar (char : jsstring) : bool :=
  str_eqb char QUOTE || str_eqb char DQUOTE || str_eqb char BACKTICK.

(** [(char == '#' && nextChar == ' ') || (char == '-' && nextChar == '-')
    || (char == '/' && nextChar == '*')] *)
Definition startsComment (char : jsstring) (nextChar : option jsstring) : bool :=
  str_eqb char HASH && opt_eqb SPACE nextChar
  || str_eqb char DASH && opt_eqb DASH nextChar
  || str_eqb char SLASH && opt_eqb STAR nextChar.

(** [((commentChar == '#' || commentChar == '-') && char == '\n') ||
    (commentChar == '/' && (char == '*' && nextChar == '/'))] *)
Definition endsComment (commentChar : option jsstring) (char : jsstring)
           (nextChar : option jsstring) : bool :=
  (opt_eqb HASH commentChar || opt_eqb DASH commentChar) && str_eqb char NEWLINE
  || opt_eqb SLASH commentChar && (str_eqb char STAR && opt_eqb SLASH nextChar).

(** The body of the loop of [getStatements].  Leaving the loop carries
    [splittingIndex].  The test [char.toLowerCase() === delimiter.toLowerCase()]
    is equality with the delimiter: [parse], the only caller, passes [';'],
    which has no case and is the lower case of no other character. *)
Definition scanBody (delimiter : jsstring) (previousChar : option jsstring)
           (char : jsstring) (tl : list jsstring) (index : nat) (st : ScanState)
  : Outcome ScanState nat :=
  let nextChar := hd_error tl in
  (* it's in string, go to next char *)
  if negb (opt_eqb BACKSLASH previousChar) && isQuoteChar char
     && negb (isInString st) && negb (isInComment st)
  then
    if twoMore char tl
    then Continue (mkScan (isInComment st) (commentChar st) true (Some char) true) 2
    else Continue (mkScan (isInComment st) (commentChar st) true (Some char)
                          (isInTripleQuotes st)) 0
  (* it's comment, go to next char *)
  else if startsComment char nextChar && negb (isInString st)
  then Continue (mkScan true (Some char) (isInString st) (stringChar st)
                        (isInTripleQuotes st)) 0
  (* it's end of comment, go to next *)
  else if isInComment st && endsComment (commentChar st) char nextChar
  then Continue (mkScan false None (isInString st) (stringChar st)
                        (isInTripleQuotes st)) 0
  (* string closed, go to next char *)
  else if negb (opt_eqb BACKSLASH previousChar) && opt_eqb char (stringChar st)
          && isInString st
  then
    if isInTripleQuotes st
    then
      if twoMore char tl
      then Continue (mkScan (isInComment st) (commentChar st) false None false) 2
      else Continue st 0
    else Continue (mkScan (isInComment st) (commentChar st) false None
                          (isInTripleQuotes st)) 0
  (* it's a query, continue until you get delimiter hit *)
  else if str_eqb char delimiter && negb (isInString st) && negb (isInComment st)
  then Leave (index + 1)
  else Continue st 0.

(** The loop of [getStatements] over [charArray]: [Some splittingIndex] when
    it was left at a delimiter, [None] when it ran to the end. *)
Definition scan (delimiter : jsstring) (charArray : list jsstring) : option nat :=
  match forLoop (scanBody delimiter) 0 None 0 scanInit charArray with
  | inl _ => None
  | inr splittingIndex => Some splittingIndex
  end.

(** The scanner states at the loop iterations of [getStatements]. *)
Definition scanStates (delimiter : jsstring) (charArray : list jsstring) : list ScanState :=
  iterations (scanBody delimiter) 0 None 0 scanInit charArray.

(** A result array [[statement, restOfQuery]], whose second element may be
    [null]. *)
Definition Parts : Type := (jsstring * option jsstring)%type.

Section Splitter.
(** The two revisions of the class differ in [getQueryParts] only. *)
Variable getQueryParts : jsstring -> nat -> nat -> Parts.

Definition getStatements (query delimiter : jsstring) : Parts :=
  match scan delimiter (Array_from query) with
  | Some splittingIndex => getQueryParts query splittingIndex 0
  | None => (trim query, None)
  end.

(** The [while] loop of [parse].  [restOfQuery] is [query] in the first
    round.  [None] when [fuel] rounds were not enough. *)
Fixpoint parseLoop (fuel : nat) (restOfQuery : jsstring) (queries : list jsstring)
  : option (list jsstring) :=
  match fuel with
  | O => None
  | S fuel' =>
      let statementAndRest := getStatements restOfQuery SEMICOLON in
      let statement := fst statementAndRest in
      let queries' :=
        if negb (isBlank statement) then queries ++ [statement] else queries in
      match snd statementAndRest with
      | None => Some queries'
      | Some restOfQuery' =>
          if isBlank restOfQuery' then Some queries'
          else parseLoop fuel' restOfQuery' queries'
      end
  end.

Definition parse (query : jsstring) : option (list jsstring) :=
  parseLoop (S (length query)) query [].
End Splitter.

(** The second revision in the source, the one with the licence header
    and the documentation comments.  The specification follows it: the
    statement stops short of the delimiter. *)
Module Rev2.
Definition getQueryParts (query : jsstring) (splittingIndex numChars : nat) : Parts :=
  let statement := substring query 0 (splittingIndex - 1) in
  let restOfQuery := substringFrom query (splittingIndex + numChars) in
  (trim statement, Some restOfQuery).

Definition getStatements := getStatements getQueryParts.
Definition parse := parse getQueryParts.
End Rev2.

(** The first revision in the source: the statement runs up to and
    including the delimiter. *)
Module Rev1.
Definition getQueryParts (query : jsstring) (splittingIndex numChars : nat) : Parts :=
  let statement := substring query 0 splittingIndex in
  let restOfQuery := substringFrom query (splittingIndex + numChars) in
  (trim statement, Some restOfQuery).

Definition getStatements := getStatements getQueryParts.
Definition parse := parse getQueryParts.
End Rev1.

(** ** The classifier: [getFirstKeywordOutsideComments], [getStatementType]

    The two revisions of these functions are the same but for a variable
    [previousChar] that the first one assigns and never reads. *)

Inductive StatementType : Type := UNSPECIFIED | QUERY | DML | DDL.

Record KeywordState : Type := mkKw {
  kwInComment : bool;           (* [isInComment] *)
  kwCommentChar : option jsstring;   (* [commentChar] *)
  keyword : jsstring
}.

Definition kwInit : KeywordState := mkKw false None [].

(** The body of the loop of [getFirstKeywordOutsideComments].  Leaving the
    loop is [return keyword]. *)
Definition keywordBody (previousChar : option jsstring) (char : jsstring)
           (tl : list jsstring) (index : nat) (st : KeywordState)
  : Outcome KeywordState jsstring :=
  let nextChar := hd_error tl in
  (* it's comment, go to next char *)
  if startsComment char nextChar
  then Continue (mkKw true (Some char) (keyword st)) 0
  (* it's end of comment, go to next *)
  else if kwInComment st && endsComment (kwCommentChar st) char nextChar
  then Continue (mkKw false None (keyword st))
                (if opt_eqb SLASH (kwCommentChar st) then 1 else 0)
  else if negb (kwInComment st)
  then
    if isBlank char
    then
      match keyword st with
      | [] => Continue st 0
      | _ :: _ => Leave (keyword st)
      end
    else Continue (mkKw (kwInComment st) (kwCommentChar st) (keyword st ++ char)) 0
  else Continue st 0.

Definition getFirstKeywordOutsideComments (sql : jsstring) : jsstring :=
  match forLoop keywordBody 0 None 0 kwInit (Array_from sql) with
  | inl st => keyword st
  | inr kw => kw
  end.

Section Classifier.
(** The upper case of one code point, as the Unicode case tables give it
    (one or more code points).  [String.prototype.toUpperCase] maps every
    code point of the string through it, whatever surrounds it. *)
Variable upperCaseOf : jsstring -> jsstring.

Definition toUpperCase (s : jsstring) : jsstring :=
  concat (List.map upperCaseOf (Array_from s)).

Definition getStatementType (sql : jsstring) : StatementType :=
  match sql with
  | [] => UNSPECIFIED
  | _ :: _ =>
      let statement := toUpperCase (getFirstKeywordOutsideComments sql) in
      if startsWith statement (js "SELECT") || startsWith statement (js "WITH")
      then QUERY
      else if startsWith statement (js "INSERT") || startsWith statement (js "UPDATE")
              || startsWith statement (js "DELETE")
      then DML
      else if startsWith statement (js "CREATE") || startsWith statement (js "ALTER")
              || startsWith statement (js "DROP")
      then DDL
      else UNSPECIFIED
  end.

(** The classification the specification words: the upper-cased keyword
    is looked up in the keyword sets, in the order Query, DataChange,
    SchemaChange. *)
Definition classifyByMembership (sql : jsstring) : StatementType :=
  let statement := toUpperCase (getFirstKeywordOutsideComments sql) in
  if existsb (str_eqb statement) [js "SELECT"; js "WITH"] then QUERY
  else if existsb (str_eqb statement) [js "INSERT"; js "UPDATE"; js "DELETE"] then DML
  else if existsb (str_eqb statement) [js "CREATE"; js "ALTER"; js "DROP"] then DDL
  else UNSPECIFIED.
End Classifier.

(** The case table on Basic Latin: [a]-[z] go to [A]-[Z], the other
    characters up to U+007F are their own upper case.  Code points beyond
    Basic Latin are left as they are here; the examples that use this table
    are Basic Latin text. *)
Definition upperCaseLatin (char : jsstring) : jsstring :=
  List.map (fun u => if (97 <=? u)%N && (u <=? 122)%N then (u - 32)%N else u) char.

(** U+1F600, a code point outside the Basic Multilingual Plane: two code
    units, one element of [Array.from]. *)
Definition emoji : jsstring := [55357%N; 56832%N].

(** ** [clearTextUntilComment] (first revision only)

    The text up to the first comment marker; [null] when nothing was
    collected.  Its loop reads [charArray[index + 1]] at every index, which
    is [undefined] at the last one and equal to no character. *)

Definition clearBody (previousChar : option jsstring) (char : jsstring)
           (tl : list jsstring) (index : nat) (clearedText : option jsstring)
  : Outcome (option jsstring) (option jsstring) :=
  let nextChar := hd_error tl in
  if startsComment char nextChar
  then Leave clearedText
  else Continue (Some (match clearedText with
                       | None => []
                       | Some text => text
                       end ++ char)) 0.

Definition clearTextUntilComment (text : jsstring) : option jsstring :=
  match forLoop clearBody 0 None 0 None (Array_from text) with
  | inl clearedText => clearedText
  | inr clearedText => clearedText
  end.

(** ** The driver: [CloudSpannerDriver.query]

    [query] splits the script and runs the statements one after the other.
    [executeQuery], [executeDml] and [executeDdl] call the database client;
    they are taken as given: each maps the database ([db], what [open]
    resolved to) and a statement to the database after the call and either
    a result or the failure its promise was rejected with.  An awaited rejection and the [throw] for an
    unsupported statement both end [query] at once. *)

Inductive QueryError (Failure : Type) : Type :=
| Unsupported (sql : jsstring)     (* [Error(`Unsupported statement: ${sql}`)] *)
| Rejected (failure : Failure).

Arguments Unsupported {Failure} sql.
Arguments Rejected {Failure} failure.

Section Driver.
Variables Db Result Failure : Type.
Variable parse : jsstring -> option (list jsstring).
Variable upperCaseOf : jsstring -> jsstring.
Variables executeQuery executeDml : Db -> jsstring -> Db * (Result + Failure).

(** The revision of the driver in src/ls/driver.ts has no [executeDdl] and
    lets [case StatementType.DDL] fall through to the [throw]: [None].  The
    other revision runs [executeDdl]: [Some executeDdl]. *)
Variable executeDdl : option (Db -> jsstring -> Db * (Result + Failure)).

(** [resultsAgg.push(await execute(db, sql, opt))] and on with the loop *)
Definition pushAwait (outcome : Db * (Result + Failure)) (resultsAgg : list Result)
           (next : Db -> list Result -> Db * (list Result + QueryError Failure))
  : Db * (list Result + QueryError Failure) :=
  match outcome with
  | (db', inl result) => next db' (resultsAgg ++ [result])
  | (db', inr failure) => (db', inr (Rejected failure))
  end.

(** [for (const sql of statementsArray) { switch (statementType) ... }] *)
Fixpoint queryLoop (statementsArray : list jsstring) (db : Db) (resultsAgg : list Result)
  : Db * (list Result + QueryError Failure) :=
  match statementsArray with
  | [] => (db, inl resultsAgg)
  | sql :: rest =>
      match getStatementType upperCaseOf sql with
      | QUERY => pushAwait (executeQuery db sql) resultsAgg (queryLoop rest)
      | DML => pushAwait (executeDml db sql) resultsAgg (queryLoop rest)
      | DDL =>
          match executeDdl with
          | Some execute => pushAwait (execute db sql) resultsAgg (queryLoop rest)
          | None => (db, inr (Unsupported sql))
          end
      | UNSPECIFIED => (db, inr (Unsupported sql))
      end
  end.

(** [None] only if [parse] ran out of rounds. *)
Definition query (db : Db) (queries : jsstring)
  : option (Db * (list Result + QueryError Failure)) :=
  match parse queries with
  | Some statementsArray => Some (queryLoop statementsArray db [])
  | None => None
  end.
End Driver.

(** ** Notions used in the proofs *)

(** The loops of the splitter, with the delimiter [parse] passes and the
    [getQueryParts] of the second revision. *)
Abbreviation scanLoop := (forLoop (scanBody SEMICOLON)).
Abbreviation parseLoop2 := (parseLoop Rev2.getQueryParts).

(** The remembered quote character is one of the three quote characters. *)
Definition stringCharIsQuote (st : ScanState) : Prop :=
  forall q, stringChar st = Some q -> isQuoteChar q = true.

(** An element that is none of the characters the scanner looks ahead
    for, nor the delimiter. *)
Definition inert (char : jsstring) : Prop :=
  ~ In char [QUOTE; DQUOTE; BACKTICK; SPACE; DASH; STAR; SLASH; SEMICOLON].

(** The scanner is not inside a string and inside a comment at once. *)
Definition exclusive (st : ScanState) : Prop :=
  isInString st && isInComment st = false.

(** The scan of a text finds no delimiter and ends outside strings and
    comments. *)
Definition endsOutside (text : jsstring) : Prop :=
  match forLoop (scanBody SEMICOLON) 0 None 0 scanInit (Array_from text) with
  | inl st => isInString st = false /\ isInComment st = false
  | inr _ => False
  end.

(** The statements are pieces of the text that follow one another. *)
Fixpoint inOrder (statements : list jsstring) (text : jsstring) : Prop :=
  match statements with
  | [] => True
  | statement :: rest =>
      exists pre post, text = pre ++ statement ++ post /\ inOrder rest post
  end.

(** The text begins with a comment marker. *)
Definition beginsComment (text : jsstring) : bool :=
  match Array_from text with
  | char :: tl => startsComment char (hd_error tl)
  | [] => false
  end.

(** The other case of a Basic Latin letter; other code units as they are. *)
Definition swapCaseLatin (u : N) : N :=
  if (97 <=? u)%N && (u <=? 122)%N then (u - 32)%N
  else if (65 <=? u)%N && (u <=? 90)%N then (u + 32)%N
  else u.

Definition isLatinLetter (u : N) : bool :=
  (97 <=? u)%N && (u <=? 122)%N || (65 <=? u)%N && (u <=? 90)%N.

(** The loop of the classifier. *)
Abbreviation kwLoop := (forLoop keywordBody).

(** What the two revisions of [getQueryParts] have in common. *)
Definition cutsBefore (getQueryParts : jsstring -> nat -> nat -> Parts) : Prop :=
  forall query splittingIndex,
  exists j, j <= splittingIndex
            /\ getQueryParts query splittingIndex 0
               = (trim (firstn j query), Some (skipn splittingIndex query)).

Definition separator (u : N) : bool := isWhiteSpace u || (u =? 59)%N.

Definition wordChars (s : jsstring) : Prop :=
  Forall (fun u => isWhiteSpace u = false) s.

Definition endsWithDelimiter (statement : jsstring) : Prop :=
  exists text, statement = text ++ SEMICOLON.

(** The state of the classifier with the letters of the keyword changed. *)
Definition recaseKw (f : N -> N) (st : KeywordState) : KeywordState :=
  mkKw (kwInComment st) (kwCommentChar st) (List.map f (keyword st)).

(** The number of elements ahead of the first comment marker. *)
Fixpoint kept (l : list jsstring) : nat :=
  match l with
  | [] => 0
  | c :: tl => if startsComment c (hd_error tl) then 0 else S (kept tl)
  end.

Definition collected (r : option jsstring + option jsstring) : option jsstring :=
  match r with inl text => text | inr text => text end.

(** What [query] does after a part of the statements. *)
Definition andThen (Db Result Failure : Type)
           (first : Db * (list Result + QueryError Failure))
           (next : Db -> list Result -> Db * (list Result + QueryError Failure))
  : Db * (list Result + QueryError Failure) :=
  match first with
  | (db, inl results) => next db results
  | (db, inr error) => (db, inr error)
  end.

(** A statement the driver has no way to run. *)
Definition unsupported (Db Result Failure : Type) (upperCaseOf : jsstring -> jsstring)
           (executeDdl : option (Db -> jsstring -> Db * (Result + Failure)))
           (sql : jsstring) : Prop :=
  getStatementType upperCaseOf sql = UNSPECIFIED
  \/ (getStatementType upperCaseOf sql = DDL /\ executeDdl = None).

(** A database that is the list of the statements run on it; every call
    succeeds and returns its statement. *)
Definition logExecute (db : list jsstring) (sql : jsstring)
  : list jsstring * (jsstring + unit) :=
  (db ++ [sql], inl sql).

(** * Properties *)

(** ** Strings *)

Lemma str_eqb_spec (a b : jsstring) : reflect (a = b) (str_eqb a b).
Proof.
  revert b; induction a as [|x a IH]; intros [|y b]; simpl;
    try (constructor; congruence).
  destruct (N.eqb_spec x y) as [->|Hxy]; simpl.
  - destruct (IH b) as [->|Hab]; constructor; congruence.
  - constructor; congruence.
Qed.

Lemma str_eqb_refl (a : jsstring) : str_eqb a a = true.
Proof. destruct (str_eqb_spec a a); congruence. Qed.

Lemma startsWith_firstn (s prefix : jsstring) :
  startsWith s prefix = true -> firstn (length prefix) s = prefix.
Proof.
  revert s; induction prefix as [|p prefix IH]; intros [|u s]; simpl;
    try congruence.
  intros H; apply andb_true_iff in H as [Hu Hs].
  apply N.eqb_eq in Hu; subst; f_equal; auto.
Qed.

(** Two words that differ within their first [n] characters are not both
    prefixes of one string. *)
Lemma startsWith_apart (n : nat) (s p q : jsstring) :
  n <= length p -> n <= length q -> firstn n p <> firstn n q ->
  startsWith s p = true -> startsWith s q = true -> False.
Proof.
  intros Hp Hq Hne H1 H2; apply Hne.
  apply startsWith_firstn in H1, H2.
  rewrite <- H1 at 1; rewrite <- H2.
  rewrite !firstn_firstn.
  rewrite !Nat.min_l by assumption; reflexivity.
Qed.


Lemma nth_error_cut (A : Type) (l : list A) : forall (i : nat) (x : A),
  nth_error l i = Some x -> l = firstn i l ++ x :: skipn (S i) l.
Proof.
  induction l as [|a l IH]; intros [|i] x H; simpl in *; try discriminate.
  - congruence.
  - f_equal; apply IH, H.
Qed.

(** ** Trimming *)

(** [trimStart] removes a run of white space from the front. *)
Lemma trimStart_split (s : jsstring) :
  exists ws, s = ws ++ trimStart s /\ forallb isWhiteSpace ws = true.
Proof.
  induction s as [|u s [ws [Hs Hws]]]; simpl.
  - exists []; auto.
  - destruct (isWhiteSpace u) eqn:Hu.
    + exists (u :: ws); simpl; rewrite Hu, Hws; split; [f_equal; exact Hs | reflexivity].
    + exists []; auto.
Qed.

Lemma trimStart_head (s : jsstring) :
  match trimStart s with
  | [] => True
  | u :: _ => isWhiteSpace u = false
  end.
Proof.
  induction s as [|u s IH]; simpl; auto.
  destruct (isWhiteSpace u) eqn:Hu; auto.
Qed.

Lemma trimStart_fixed (s : jsstring) :
  match s with [] => True | u :: _ => isWhiteSpace u = false end ->
  trimStart s = s.
Proof. destruct s as [|u s]; simpl; auto; intros ->; reflexivity. Qed.

Lemma trimStart_app_keep (s t : jsstring) :
  trimStart s <> [] -> trimStart (s ++ t) = trimStart s ++ t.
Proof.
  induction s as [|u s IH]; simpl; [congruence|].
  destruct (isWhiteSpace u); auto.
Qed.

Lemma trimStart_blank (ws : jsstring) :
  forallb isWhiteSpace ws = true -> trimStart ws = [].
Proof.
  induction ws as [|u ws IH]; simpl; auto.
  intros H; apply andb_true_iff in H as [-> H]; auto.
Qed.

Lemma trimStart_app_blank (ws s : jsstring) :
  forallb isWhiteSpace ws = true -> trimStart (ws ++ s) = trimStart s.
Proof.
  induction ws as [|u ws IH]; simpl; auto.
  intros H; apply andb_true_iff in H as [-> H]; auto.
Qed.

(** [trimEnd] keeps a prefix and removes a run of white space after it. *)
Lemma trimEnd_split (s : jsstring) :
  exists ws, s = trimEnd s ++ ws /\ forallb isWhiteSpace ws = true.
Proof.
  unfold trimEnd.
  destruct (trimStart_split (rev s)) as [ws [Hs Hws]].
  exists (rev ws); split.
  - rewrite <- rev_app_distr, <- Hs, rev_involutive; reflexivity.
  - rewrite forallb_forall in *; intros x Hx; apply Hws, in_rev, Hx.
Qed.

Lemma trimEnd_firstn (s : jsstring) : trimEnd s = firstn (length (trimEnd s)) s.
Proof.
  destruct (trimEnd_split s) as [ws [Hs _]].
  rewrite Hs at 3.
  rewrite firstn_app, Nat.sub_diag, firstn_all; simpl.
  rewrite app_nil_r; reflexivity.
Qed.

Lemma trimEnd_length (s : jsstring) : length (trimEnd s) <= length s.
Proof.
  destruct (trimEnd_split s) as [ws [Hs _]].
  rewrite Hs at 2; rewrite length_app; lia.
Qed.

(** Trimming the end leaves the first character in place. *)
Lemma trimEnd_head (u : N) (s : jsstring) :
  isWhiteSpace u = false -> exists s', trimEnd (u :: s) = u :: s'.
Proof.
  intros Hu.
  destruct (trimEnd_split (u :: s)) as [ws [Hs Hws]].
  destruct (trimEnd (u :: s)) as [|v s'] eqn:E.
  - simpl in Hs; subst ws; simpl in Hws; rewrite Hu in Hws; discriminate.
  - exists s'; simpl in Hs; congruence.
Qed.

Lemma trimEnd_idem (s : jsstring) : trimEnd (trimEnd s) = trimEnd s.
Proof.
  unfold trimEnd; rewrite rev_involutive.
  f_equal; apply trimStart_fixed, trimStart_head.
Qed.

Lemma trim_idem (s : jsstring) : trim (trim s) = trim s.
Proof.
  unfold trim.
  assert (H : trimStart (trimEnd (trimStart s)) = trimEnd (trimStart s)).
  { pose proof (trimStart_head s) as Hh.
    destruct (trimStart s) as [|u t]; [reflexivity|].
    destruct (@trimEnd_head u t Hh) as [t' ->]; simpl; rewrite Hh; reflexivity. }
  rewrite H; apply trimEnd_idem.
Qed.

Lemma isBlank_false_iff (s : jsstring) : isBlank s = false <-> trim s <> [].
Proof. unfold isBlank; destruct (trim s); split; congruence. Qed.

(** ** Code points *)

(** Induction along the way [Array_from] reads a string: one code unit or
    one surrogate pair at a time. *)
Lemma Array_from_ind (P : jsstring -> Prop) :
  P [] ->
  (forall u, P [u]) ->
  (forall u v s, isHighSurrogate u && isLowSurrogate v = true ->
                 P s -> P (u :: v :: s)) ->
  (forall u v s, isHighSurrogate u && isLowSurrogate v = false ->
                 P (v :: s) -> P (u :: v :: s)) ->
  forall s, P s.
Proof.
  intros Hnil Hone Hpair Hunit.
  assert (H : forall n s, length s <= n -> P s).
  { induction n as [|n IH]; intros [|u [|v s]] Hlen; simpl in Hlen; auto; try lia.
    destruct (isHighSurrogate u && isLowSurrogate v) eqn:E.
    - apply Hpair; auto. apply IH; lia.
    - apply Hunit; auto. apply IH; simpl; lia. }
  intros s; apply (H (length s)); lia.
Qed.

Lemma Array_from_pair (u v : N) (s : jsstring) :
  isHighSurrogate u && isLowSurrogate v = true ->
  Array_from (u :: v :: s) = [u; v] :: Array_from s.
Proof. intros H; simpl; rewrite H; reflexivity. Qed.

Lemma Array_from_unit (u v : N) (s : jsstring) :
  isHighSurrogate u && isLowSurrogate v = false ->
  Array_from (u :: v :: s) = [u] :: Array_from (v :: s).
Proof. intros H; cbn [Array_from]; rewrite H; reflexivity. Qed.

Lemma Array_from_not_high (u : N) (s : jsstring) :
  isHighSurrogate u = false -> Array_from (u :: s) = [u] :: Array_from s.
Proof.
  intros H; destruct s as [|v s]; [reflexivity|].
  apply Array_from_unit; rewrite H; reflexivity.
Qed.

(** The elements of [Array.from(s)], put together again, are [s]. *)
Lemma concat_Array_from (s : jsstring) : concat (Array_from s) = s.
Proof.
  induction s as [| u | u v s Hp IH | u v s Hp IH] using Array_from_ind;
    try reflexivity.
  - rewrite Array_from_pair by assumption; simpl; rewrite IH; reflexivity.
  - rewrite Array_from_unit by assumption; cbn [concat app]; rewrite IH; reflexivity.
Qed.

Lemma Array_from_length (s : jsstring) : length (Array_from s) <= length s.
Proof.
  induction s as [| u | u v s Hp IH | u v s Hp IH] using Array_from_ind.
  - simpl; lia.
  - simpl; lia.
  - rewrite Array_from_pair by assumption. cbn [length]; lia.
  - rewrite Array_from_unit by assumption. cbn [length] in *; lia.
Qed.

(** Every element holds at least one code unit. *)
Lemma concat_firstn_length (s : jsstring) (n : nat) :
  n <= length (Array_from s) -> n <= length (concat (firstn n (Array_from s))).
Proof.
  revert n;
  induction s as [| u | u v s Hp IH | u v s Hp IH] using Array_from_ind;
    intros n.
  - simpl; lia.
  - destruct n as [|[|n]]; simpl; lia.
  - rewrite Array_from_pair by assumption.
    destruct n as [|n]; simpl; [lia|].
    intros Hn; assert (n <= length (Array_from s)) by lia.
    specialize (IH n); lia.
  - rewrite Array_from_unit by assumption.
    destruct n as [|n]; [simpl; lia|].
    cbn [length firstn concat app].
    intros Hn; assert (n <= length (Array_from (v :: s))) by lia.
    specialize (IH n); lia.
Qed.

(** White space is not a surrogate, a quote, a comment marker or the
    delimiter. *)
Lemma isWhiteSpace_facts (u : N) :
  isWhiteSpace u = true ->
  isHighSurrogate u = false /\ u <> 39%N /\ u <> 34%N /\ u <> 96%N /\ u <> 35%N
  /\ u <> 45%N /\ u <> 47%N /\ u <> 42%N /\ u <> 59%N /\ u <> 92%N.
Proof.
  unfold isWhiteSpace, isHighSurrogate; intros H.
  repeat rewrite ?orb_true_iff, ?andb_true_iff in H.
  rewrite ?N.eqb_eq, ?N.leb_le in H.
  rewrite andb_false_iff, !N.leb_gt.
  repeat split; lia.
Qed.

Lemma Array_from_blank_app (ws s : jsstring) :
  forallb isWhiteSpace ws = true ->
  Array_from (ws ++ s) = List.map (fun u => [u]) ws ++ Array_from s.
Proof.
  induction ws as [|w ws IH]; [reflexivity|]; cbn [forallb app map].
  intros H; apply andb_true_iff in H as [Hw Hws].
  rewrite Array_from_not_high by (apply isWhiteSpace_facts, Hw).
  rewrite IH by assumption; reflexivity.
Qed.

(** ** Comparisons *)

Lemma str_eqb_sym (a b : jsstring) : str_eqb a b = str_eqb b a.
Proof.
  destruct (str_eqb_spec a b), (str_eqb_spec b a); congruence.
Qed.

Lemma str_eqb_neq (a b : jsstring) : a <> b -> str_eqb a b = false.
Proof. destruct (str_eqb_spec a b); congruence. Qed.

Lemma isQuoteChar_true (c : jsstring) :
  isQuoteChar c = true -> c = QUOTE \/ c = DQUOTE \/ c = BACKTICK.
Proof.
  unfold isQuoteChar; rewrite !orb_true_iff.
  intros [[H|H]|H]; destruct (str_eqb_spec c QUOTE), (str_eqb_spec c DQUOTE),
    (str_eqb_spec c BACKTICK); auto; discriminate.
Qed.

(** ** The loop body of [getStatements] *)

Ltac body_cases :=
  unfold scanBody in *;
  repeat match goal with
         | |- context [if ?b then _ else _] => destruct b eqn:?
         | H : context [if ?b then _ else _] |- _ => destruct b eqn:?
         end.

(** The loop is left only at a delimiter met outside strings and comments,
    with [splittingIndex = index + 1]. *)
Lemma scanBody_Leave d p c tl i st r :
  scanBody d p c tl i st = Leave r ->
  r = i + 1 /\ str_eqb c d = true /\ isInString st = false /\ isInComment st = false.
Proof.
  intros H; body_cases; try discriminate.
  injection H as <-.
  match goal with
  | E : _ && _ && _ = true |- _ =>
      apply andb_true_iff in E as [E E3]; apply andb_true_iff in E as [E1 E2];
      apply negb_true_iff in E2, E3
  end.
  auto.
Qed.

(** What follows a semicolon does not decide whether the loop is left at it. *)
Lemma scanBody_Leave_any_tail p c tl tl' i st r :
  scanBody SEMICOLON p c tl i st = Leave r ->
  scanBody SEMICOLON p c tl' i st = Leave (i + 1).
Proof.
  intros H; apply scanBody_Leave in H as (_ & Hc & Hs & Hm).
  destruct (str_eqb_spec c SEMICOLON) as [->|]; [|discriminate].
  destruct st as [m mc s sc t]; simpl in *; subst.
  unfold scanBody; simpl.
  rewrite !andb_false_r; reflexivity.
Qed.

Lemma scanBody_in_string d p c tl i st :
  isInString st = true -> exists st' k, scanBody d p c tl i st = Continue st' k.
Proof.
  intros Hs; destruct (scanBody d p c tl i st) as [st' k|r] eqn:E; eauto.
  apply scanBody_Leave in E as (_ & _ & E & _); congruence.
Qed.

(** The body reads the rest of the array through [nextChar] and, at a quote
    character, through the two elements that follow. *)
Lemma scanBody_lookahead d p c tl tl' i st :
  (forall k, In k [SPACE; DASH; STAR; SLASH] ->
             opt_eqb k (hd_error tl) = opt_eqb k (hd_error tl')) ->
  (isQuoteChar c = true \/ opt_eqb c (stringChar st) = true ->
   twoMore c tl = twoMore c tl') ->
  scanBody d p c tl i st = scanBody d p c tl' i st.
Proof.
  intros Hn Ht.
  unfold scanBody, startsComment, endsComment.
  rewrite !(Hn SPACE), !(Hn DASH), !(Hn STAR), !(Hn SLASH) by (simpl; auto).
  destruct (isQuoteChar c) eqn:Eq.
  - rewrite Ht by auto; reflexivity.
  - destruct (opt_eqb c (stringChar st)) eqn:Es.
    + rewrite Ht by auto; reflexivity.
    + rewrite !andb_false_r; simpl. reflexivity.
Qed.

Lemma twoMore_app c tl l : twoMore c tl = true -> twoMore c (tl ++ l) = true.
Proof. destruct tl as [|a [|b tl]]; simpl; auto; discriminate. Qed.

(** Where two tails agree on [nextChar] and only the longer one shows two
    more quotes, either the body does the same on both or the shorter one
    leaves the scanner inside a string. *)
Lemma scanBody_two_more d p c tl tl' i st st' k :
  hd_error tl = hd_error tl' ->
  twoMore c tl = false -> twoMore c tl' = true ->
  scanBody d p c tl i st = Continue st' k ->
  scanBody d p c tl' i st = Continue st' k \/ (isInString st' = true /\ k = 0).
Proof.
  intros Hh Hs Hl; unfold scanBody; rewrite Hh, Hs, Hl.
  intros H; body_cases; try discriminate; auto;
    injection H as <- <-; auto.
  right; split; auto.
  match goal with
  | E : _ && _ && isInString st = true |- _ =>
      apply andb_true_iff in E as [_ E]; exact E
  end.
Qed.

Lemma scanBody_stringChar d p c tl i st st' k :
  stringCharIsQuote st -> scanBody d p c tl i st = Continue st' k ->
  stringCharIsQuote st'.
Proof.
  intros Hw H; body_cases; try discriminate; injection H as <- <-; auto;
    intros q Hq; simpl in Hq; try discriminate; auto.
  all: injection Hq as <-.
  all: match goal with
       | E : _ && isQuoteChar _ && _ && _ = true |- _ =>
           apply andb_true_iff in E as [E _]; apply andb_true_iff in E as [E _];
           apply andb_true_iff in E as [_ E]; exact E
       end.
Qed.

Lemma scanBody_previousChar d p p' c tl i st :
  opt_eqb BACKSLASH p = opt_eqb BACKSLASH p' ->
  scanBody d p c tl i st = scanBody d p' c tl i st.
Proof. unfold scanBody; intros ->; reflexivity. Qed.

Lemma scanBody_index d p c tl i n st :
  scanBody d p c tl (i + n) st
  = match scanBody d p c tl i st with
    | Continue st' k => Continue st' k
    | Leave r => Leave (r + n)
    end.
Proof.
  unfold scanBody; body_cases; try reflexivity; try discriminate.
  f_equal; lia.
Qed.

Lemma scanBody_blank p w tl i :
  isWhiteSpace w = true ->
  scanBody SEMICOLON p [w] tl i scanInit = Continue scanInit 0.
Proof.
  intros Hw; apply isWhiteSpace_facts in Hw as (_ & H1 & H2 & H3 & H4 & H5 & H6 & H7 & H8 & _).
  unfold scanBody, isQuoteChar, startsComment, QUOTE, DQUOTE, BACKTICK, HASH, DASH,
    SLASH, SEMICOLON; simpl.
  apply N.eqb_neq in H1, H2, H3, H4, H5, H6, H8.
  rewrite H1, H2, H3, H4, H5, H6, H8; simpl.
  rewrite !andb_false_r; reflexivity.
Qed.

(** ** The loop of [getStatements] *)

Lemma scanLoop_bounds (l : list jsstring) : forall skip prev idx st sp,
  scanLoop skip prev idx st l = inr sp -> idx < sp <= idx + length l.
Proof.
  induction l as [|c tl IH]; intros skip prev idx st sp; cbn [forLoop length].
  - discriminate.
  - destruct skip as [|k].
    + destruct (scanBody SEMICOLON prev c tl idx st) as [st' k|r] eqn:E.
      * intros H; apply IH in H; lia.
      * intros H; injection H as <-. apply scanBody_Leave in E as [-> _]; lia.
    + intros H; apply IH in H; lia.
Qed.

Lemma scanLoop_previousChar (l : list jsstring) skip p p' idx st :
  opt_eqb BACKSLASH p = opt_eqb BACKSLASH p' ->
  scanLoop skip p idx st l = scanLoop skip p' idx st l.
Proof.
  intros H; destruct l as [|c tl]; [reflexivity|]; cbn [forLoop].
  destruct skip; [|reflexivity].
  rewrite (@scanBody_previousChar SEMICOLON p p' c tl idx st H); reflexivity.
Qed.

Lemma scanLoop_index (n : nat) (l : list jsstring) : forall skip prev idx st,
  scanLoop skip prev (idx + n) st l
  = match scanLoop skip prev idx st l with
    | inl st' => inl st'
    | inr sp => inr (sp + n)
    end.
Proof.
  induction l as [|c tl IH]; intros skip prev idx st; cbn [forLoop]; [reflexivity|].
  destruct skip as [|k].
  - rewrite scanBody_index.
    destruct (scanBody SEMICOLON prev c tl idx st) as [st' k|r]; [|reflexivity].
    apply (IH k (Some c) (S idx) st').
  - apply (IH k (Some c) (S idx) st).
Qed.

(** Leading white space is stepped over in the initial state. *)
Lemma scanLoop_blank_prefix (ws : jsstring) (l : list jsstring) :
  forallb isWhiteSpace ws = true ->
  forall prev idx, opt_eqb BACKSLASH prev = false ->
  scanLoop 0 prev idx scanInit (List.map (fun u => [u]) ws ++ l)
  = scanLoop 0 None (idx + length ws) scanInit l.
Proof.
  induction ws as [|w ws IH]; cbn [forallb map app length]; intros H prev idx Hp.
  - rewrite Nat.add_0_r; apply scanLoop_previousChar; exact Hp.
  - apply andb_true_iff in H as [Hw Hws].
    cbn [forLoop]; rewrite scanBody_blank by assumption.
    rewrite IH; [f_equal; lia | assumption |].
    apply isWhiteSpace_facts in Hw as (_&_&_&_&_&_&_&_&_&Hw).
    apply (@str_eqb_neq BACKSLASH [w]); unfold BACKSLASH; congruence.
Qed.

Lemma scan_blank_app (ws s : jsstring) :
  forallb isWhiteSpace ws = true ->
  scan SEMICOLON (Array_from (ws ++ s))
  = option_map (fun sp => sp + length ws) (scan SEMICOLON (Array_from s)).
Proof.
  intros H; unfold scan.
  rewrite Array_from_blank_app, scanLoop_blank_prefix by auto.
  rewrite (scanLoop_index (length ws) (Array_from s) 0 None 0 scanInit).
  destruct (scanLoop 0 None 0 scanInit (Array_from s)); reflexivity.
Qed.

(** The scan of a prefix of the array that ends before the delimiter runs
    to its end. *)
Lemma scanLoop_prefix_quiet (l1 : list jsstring) : forall l2 skip prev idx st,
  (forall sp, scanLoop skip prev idx st (l1 ++ l2) = inr sp -> idx + length l1 < sp) ->
  exists st', scanLoop skip prev idx st l1 = inl st'.
Proof.
  induction l1 as [|c t1 IH]; intros l2 skip prev idx st H.
  - exists st; reflexivity.
  - cbn [forLoop app length] in *. destruct skip as [|k].
    + destruct (scanBody SEMICOLON prev c t1 idx st) as [st' k|r] eqn:Eshort.
      * destruct (scanBody SEMICOLON prev c (t1 ++ l2) idx st) as [st2 k2|r2] eqn:Elong.
        2:{ apply scanBody_Leave_any_tail with (tl' := t1) in Elong; congruence. }
        assert (Hsame : (st2 = st' /\ k2 = k) \/ t1 = [] \/
                        (exists a, t1 = [a] /\ isInString st' = true /\ k = 0)).
        { destruct t1 as [|a [|b t1']]; auto.
          - destruct (twoMore c ([a] ++ l2)) eqn:Et.
            + destruct (@scanBody_two_more SEMICOLON prev c [a] ([a] ++ l2) idx st st' k)
                as [E|[E1 E2]]; auto.
              * left; split; congruence.
              * right; right; eauto.
            + left. rewrite (@scanBody_lookahead SEMICOLON prev c ([a] ++ l2) [a] idx st)
                in Elong; [split; congruence| reflexivity | intros _; rewrite Et; reflexivity].
          - left. rewrite (@scanBody_lookahead SEMICOLON prev c ((a :: b :: t1') ++ l2)
                             (a :: b :: t1') idx st) in Elong;
              [split; congruence | reflexivity | reflexivity]. }
        destruct Hsame as [ [-> ->] | [ -> | [a [ -> [Hs ->] ] ] ] ].
        -- apply (IH l2 k (Some c) (S idx) st').
           intros sp E; specialize (H sp E); lia.
        -- exists st'; reflexivity.
        -- cbn [forLoop].
           destruct (@scanBody_in_string SEMICOLON (Some c) a [] (S idx) st' Hs)
             as (st3 & k3 & ->).
           exists st3; reflexivity.
      * exfalso.
        rewrite (@scanBody_Leave_any_tail prev c t1 (t1 ++ l2) idx st r Eshort) in H.
        specialize (H _ eq_refl); lia.
    + apply (IH l2 k (Some c) (S idx) st).
      intros sp E; specialize (H sp E); lia.
Qed.

Lemma inert_eqb (x k : jsstring) :
  inert x -> In k [QUOTE; DQUOTE; BACKTICK; SPACE; DASH; STAR; SLASH; SEMICOLON] ->
  str_eqb k x = false /\ str_eqb x k = false.
Proof.
  intros Hx Hk; split; apply str_eqb_neq; intros E; subst; contradiction.
Qed.

Lemma inert_not_quote (x c : jsstring) :
  inert x -> isQuoteChar c = true -> str_eqb x c = false.
Proof.
  intros Hx Hc; apply isQuoteChar_true in Hc as [ -> | [ -> | -> ] ];
    apply inert_eqb; simpl; auto 10.
Qed.

(** Whether the loop is left does not depend on which inert character
    stands at the end of the array. *)
Lemma scanLoop_last_inert (l : list jsstring) (x y : jsstring) :
  inert x -> inert y ->
  forall skip prev idx st,
  stringCharIsQuote st ->
  (exists st', scanLoop skip prev idx st (l ++ [x]) = inl st') ->
  exists st', scanLoop skip prev idx st (l ++ [y]) = inl st'.
Proof.
  intros Hx Hy; induction l as [|c tl IH]; intros skip prev idx st Hw H;
    cbn [forLoop app] in *.
  - destruct skip as [|k]; [|eauto].
    destruct (scanBody SEMICOLON prev y [] idx st) as [st' k|r] eqn:E; [eauto|].
    apply scanBody_Leave in E as (_ & E & _).
    destruct (@inert_eqb y SEMICOLON Hy) as [_ E']; [simpl; auto 10 | congruence].
  - destruct skip as [|k]; [|eauto].
    rewrite (@scanBody_lookahead SEMICOLON prev c (tl ++ [y]) (tl ++ [x]) idx st).
    + destruct (scanBody SEMICOLON prev c (tl ++ [x]) idx st) as [st' k|r] eqn:E.
      * apply IH; [eapply scanBody_stringChar; eauto | exact H].
      * destruct H as [st' H]; discriminate.
    + intros k Hk; destruct tl as [|a tl]; [|reflexivity]; simpl.
      destruct (@inert_eqb x k Hx) as [-> _]; [simpl in *; intuition|].
      destruct (@inert_eqb y k Hy) as [-> _]; [simpl in *; intuition|].
      reflexivity.
    + intros Hq.
      assert (Hc : isQuoteChar c = true).
      { destruct Hq as [Hq|Hq]; [exact Hq|].
        unfold opt_eqb in Hq; destruct (stringChar st) as [q|] eqn:Eq; [|discriminate].
        destruct (str_eqb_spec c q) as [->|]; [|discriminate]; auto. }
      destruct tl as [|a [|b tl]]; simpl; try reflexivity.
      rewrite (@inert_not_quote x c Hx Hc), (@inert_not_quote y c Hy Hc); reflexivity.
Qed.

Lemma inert_high (u : N) : isHighSurrogate u = true -> inert [u].
Proof.
  unfold isHighSurrogate; rewrite andb_true_iff, !N.leb_le; intros [H _] Hin.
  simpl in Hin; unfold QUOTE, DQUOTE, BACKTICK, SPACE, DASH, STAR, SLASH, SEMICOLON in Hin.
  repeat destruct Hin as [Hin|Hin]; try contradiction; injection Hin as Hin; lia.
Qed.

Lemma inert_pair (u v : N) : inert [u; v].
Proof.
  intros Hin; simpl in Hin.
  repeat destruct Hin as [Hin|Hin]; try contradiction; discriminate.
Qed.

(** The code points of a prefix of [s] are code points of [s], except that
    the prefix may end on the first half of a surrogate pair. *)
Lemma Array_from_firstn (s : jsstring) : forall k,
  exists m,
    Array_from (firstn k s) = firstn m (Array_from s)
    \/ exists x y, inert x /\ inert y
                   /\ Array_from (firstn k s) = firstn m (Array_from s) ++ [x]
                   /\ firstn (S m) (Array_from s) = firstn m (Array_from s) ++ [y].
Proof.
  induction s as [| u | u v s Hp IH | u v s Hp IH] using Array_from_ind; intros k.
  - exists 0; left; destruct k; reflexivity.
  - destruct k as [|k].
    + exists 0; left; reflexivity.
    + exists 1; left; destruct k; reflexivity.
  - rewrite Array_from_pair by assumption.
    destruct k as [|[|k]].
    + exists 0; left; reflexivity.
    + exists 0; right; exists [u], [u; v].
      apply andb_true_iff in Hp as [Hu _].
      repeat split; auto using inert_high, inert_pair.
    + destruct (IH k) as [m [E|(x & y & Hx & Hy & E1 & E2)]]; exists (S m).
      * left; cbn [firstn]; rewrite Array_from_pair by assumption.
        rewrite E; reflexivity.
      * right; exists x, y; repeat split; auto.
        -- cbn [firstn]; rewrite Array_from_pair by assumption.
           rewrite E1; reflexivity.
        -- cbn [firstn] in *; rewrite E2; reflexivity.
  - rewrite Array_from_unit by assumption.
    destruct k as [|[|k]].
    + exists 0; left; reflexivity.
    + exists 1; left; reflexivity.
    + assert (E0 : Array_from (firstn (S (S k)) (u :: v :: s))
                   = [u] :: Array_from (firstn (S k) (v :: s))).
      { cbn [firstn]; rewrite Array_from_unit by assumption; reflexivity. }
      rewrite E0.
      destruct (IH (S k)) as [m [E|(x & y & Hx & Hy & E1 & E2)]]; exists (S m).
      * left; rewrite E; reflexivity.
      * right; exists x, y; repeat split; auto.
        -- rewrite E1; reflexivity.
        -- cbn [firstn] in *; rewrite E2; reflexivity.
Qed.

Lemma stringCharIsQuote_init : stringCharIsQuote scanInit.
Proof. intros q H; discriminate. Qed.

(** Cutting the text anywhere before the delimiter index leaves a text in
    which the scan finds no delimiter. *)
Lemma scan_firstn_quiet (s : jsstring) (k : nat) :
  (forall sp, scan SEMICOLON (Array_from s) = Some sp -> k < sp) ->
  scan SEMICOLON (Array_from (firstn k s)) = None.
Proof.
  intros H.
  assert (Hlen : length (Array_from (firstn k s)) <= k).
  { etransitivity; [apply Array_from_length|]. rewrite length_firstn; lia. }
  assert (Hq : forall l1 l2, Array_from s = l1 ++ l2 -> length l1 <= k ->
                             exists st', scanLoop 0 None 0 scanInit l1 = inl st').
  { intros l1 l2 E Hl1; apply scanLoop_prefix_quiet with (l2 := l2).
    intros sp Hsp; rewrite <- E in Hsp.
    specialize (H sp); unfold scan in H; rewrite Hsp in H.
    specialize (H eq_refl); simpl; lia. }
  unfold scan.
  destruct (Array_from_firstn s k) as [m [E|(x & y & Hx & Hy & E1 & E2)]].
  - rewrite E in *.
    destruct (Hq (firstn m (Array_from s)) (skipn m (Array_from s))) as [st' ->];
      auto using firstn_skipn.
  - rewrite E1 in *.
    destruct (@scanLoop_last_inert (firstn m (Array_from s)) y x Hy Hx 0 None 0 scanInit
                stringCharIsQuote_init) as [st' ->]; [|reflexivity].
    rewrite <- E2.
    apply (Hq (firstn (S m) (Array_from s)) (skipn (S m) (Array_from s)));
      [symmetry; apply firstn_skipn|].
    rewrite E2; rewrite !length_app in *; simpl in *; lia.
Qed.

Lemma substring_0 (s : jsstring) (n : nat) : substring s 0 n = firstn n s.
Proof.
  unfold substring; simpl. rewrite Nat.sub_0_r.
  destruct (Nat.le_ge_cases n (length s)).
  - rewrite Nat.min_l by assumption; reflexivity.
  - rewrite Nat.min_r by assumption. rewrite !firstn_all2 by lia; reflexivity.
Qed.

(** ** One round: [getStatements] *)

(** The loop is left at an element that is the delimiter. *)
Lemma scanLoop_found (l : list jsstring) : forall skip prev idx st sp,
  scanLoop skip prev idx st l = inr sp ->
  nth_error l (sp - S idx) = Some SEMICOLON.
Proof.
  induction l as [|c tl IH]; intros skip prev idx st sp H; [discriminate|].
  pose proof (scanLoop_bounds _ _ _ _ _ H) as Hb.
  cbn [forLoop] in H.
  assert (Hrec : forall k st', scanLoop k (Some c) (S idx) st' tl = inr sp ->
                               nth_error (c :: tl) (sp - S idx) = Some SEMICOLON).
  { intros k st' E. pose proof (scanLoop_bounds _ _ _ _ _ E).
    apply IH in E. replace (sp - S idx) with (S (sp - S (S idx))) by lia. exact E. }
  destruct skip as [|k]; [|eauto].
  destruct (scanBody SEMICOLON prev c tl idx st) as [st' k|r] eqn:E; [eauto|].
  injection H as <-.
  apply scanBody_Leave in E as (-> & E & _).
  destruct (str_eqb_spec c SEMICOLON) as [->|]; [|discriminate].
  replace (idx + 1 - S idx) with 0 by lia; reflexivity.
Qed.

Lemma scan_found (charArray : list jsstring) (sp : nat) :
  scan SEMICOLON charArray = Some sp ->
  0 < sp <= length charArray /\ nth_error charArray (sp - 1) = Some SEMICOLON.
Proof.
  unfold scan.
  destruct (scanLoop 0 None 0 scanInit charArray) as [st|r] eqn:E; [discriminate|].
  intros H; injection H as <-.
  pose proof (scanLoop_bounds _ _ _ _ _ E).
  apply scanLoop_found in E. split; [lia|exact E].
Qed.

(** What a round of the second revision returns. *)
Lemma getStatements_cases (query : jsstring) :
  match scan SEMICOLON (Array_from query) with
  | Some splittingIndex =>
      Rev2.getStatements query SEMICOLON
      = (trim (firstn (splittingIndex - 1) query), Some (skipn splittingIndex query))
  | None => Rev2.getStatements query SEMICOLON = (trim query, None)
  end.
Proof.
  unfold Rev2.getStatements, getStatements.
  destruct (scan SEMICOLON (Array_from query)) as [sp|]; [|reflexivity].
  unfold Rev2.getQueryParts, substringFrom.
  rewrite substring_0, Nat.add_0_r; reflexivity.
Qed.

(** The remainder of a round is strictly shorter than its input. *)
Lemma getStatements_rest_shorter (query rest : jsstring) :
  snd (Rev2.getStatements query SEMICOLON) = Some rest ->
  length rest < length query.
Proof.
  pose proof (getStatements_cases query) as H.
  destruct (scan SEMICOLON (Array_from query)) as [sp|] eqn:E;
    rewrite H; simpl; [|discriminate].
  intros Hr; injection Hr as <-.
  apply scan_found in E as [Hsp _].
  pose proof (Array_from_length query).
  rewrite length_skipn; lia.
Qed.

(** Trimming a text cut before the delimiter index gives a text without
    delimiter. *)
Lemma scan_trim_firstn_quiet (s : jsstring) (j : nat) :
  (forall sp, scan SEMICOLON (Array_from s) = Some sp -> j < sp) ->
  scan SEMICOLON (Array_from (trim (firstn j s))) = None.
Proof.
  intros H.
  destruct (trimStart_split (firstn j s)) as [ws [Hy Hws]].
  set (y1 := trimStart (firstn j s)) in *.
  assert (Hs : s = ws ++ (y1 ++ skipn j s)).
  { rewrite app_assoc, <- Hy; symmetry; apply firstn_skipn. }
  assert (Hlen : length ws + length y1 <= j).
  { rewrite <- length_app, <- Hy, length_firstn; lia. }
  unfold trim; fold y1.
  rewrite trimEnd_firstn.
  pose proof (trimEnd_length y1) as Hk.
  replace (firstn (length (trimEnd y1)) y1)
    with (firstn (length (trimEnd y1)) (y1 ++ skipn j s)).
  2:{ rewrite firstn_app.
      replace (length (trimEnd y1) - length y1) with 0 by lia.
      rewrite firstn_O, app_nil_r; reflexivity. }
  apply scan_firstn_quiet.
  intros sp Hsp.
  specialize (H (sp + length ws)).
  rewrite Hs, scan_blank_app, Hsp in H by assumption.
  specialize (H eq_refl); lia.
Qed.

(** The statement of a round holds no delimiter for the scan. *)
Lemma getStatements_statement_quiet (query : jsstring) :
  scan SEMICOLON (Array_from (fst (Rev2.getStatements query SEMICOLON))) = None.
Proof.
  pose proof (getStatements_cases query) as H.
  destruct (scan SEMICOLON (Array_from query)) as [sp|] eqn:E; rewrite H; simpl.
  - apply scan_trim_firstn_quiet.
    intros sp' Hsp'; rewrite E in Hsp'; injection Hsp' as <-.
    apply scan_found in E; lia.
  - rewrite <- (firstn_all query) at 1.
    apply scan_trim_firstn_quiet.
    intros sp' Hsp'; rewrite E in Hsp'; discriminate.
Qed.

Lemma getStatements_statement_trimmed (query : jsstring) :
  trim (fst (Rev2.getStatements query SEMICOLON))
  = fst (Rev2.getStatements query SEMICOLON).
Proof.
  pose proof (getStatements_cases query) as H.
  destruct (scan SEMICOLON (Array_from query)) as [sp|]; rewrite H; simpl;
    apply trim_idem.
Qed.

(** ** All rounds: [parse] *)

(** Every statement in the result was there before or is the statement of
    a round on a buffer that is the end of the input of the loop. *)
Lemma parseLoop_elements (fuel : nat) : forall restOfQuery queries out statement,
  parseLoop2 fuel restOfQuery queries = Some out ->
  In statement out ->
  In statement queries
  \/ exists buffer pre,
       restOfQuery = pre ++ buffer
       /\ statement = fst (Rev2.getStatements buffer SEMICOLON)
       /\ isBlank statement = false.
Proof.
  induction fuel as [|fuel IH]; intros r acc out s; cbn [parseLoop]; [discriminate|].
  fold Rev2.getStatements.
  set (stmt := fst (Rev2.getStatements r SEMICOLON)).
  set (acc' := if negb (isBlank stmt) then acc ++ [stmt] else acc).
  assert (Hacc : In s acc' ->
                 In s acc \/ exists buffer pre, r = pre ++ buffer
                   /\ s = fst (Rev2.getStatements buffer SEMICOLON)
                   /\ isBlank s = false).
  { subst acc'; destruct (isBlank stmt) eqn:Eb; simpl; auto.
    rewrite in_app_iff; simpl; intros [Hin|[<-|[]]]; auto.
    right; exists r, []; auto. }
  destruct (snd (Rev2.getStatements r SEMICOLON)) as [rest|] eqn:Er.
  - destruct (isBlank rest).
    + intros Hout; injection Hout as <-; exact Hacc.
    + intros Hout Hin.
      destruct (IH _ _ _ _ Hout Hin) as [Hin'|(buffer & pre & Hpre & Hs & Hb)]; auto.
      right; exists buffer, (firstn (length r - length rest) r ++ pre).
      split; [|auto].
      pose proof (getStatements_cases r) as Hc.
      destruct (scan SEMICOLON (Array_from r)) as [sp|] eqn:E;
        rewrite Hc in Er; simpl in Er; [|discriminate].
      injection Er as Er.
      rewrite <- app_assoc, <- Hpre, <- Er.
      rewrite length_skipn.
      apply scan_found in E as [Hsp _]; pose proof (Array_from_length r).
      replace (length r - (length r - sp)) with sp by lia.
      symmetry; apply firstn_skipn.
  - intros Hout; injection Hout as <-; exact Hacc.
Qed.

(** Whatever [getQueryParts] is, only statements with a non-empty trim are
    pushed. *)
Lemma parseLoop_nonblank (getQueryParts : jsstring -> nat -> nat -> Parts) (fuel : nat) :
  forall restOfQuery queries out,
  Forall (fun statement => isBlank statement = false) queries ->
  parseLoop getQueryParts fuel restOfQuery queries = Some out ->
  Forall (fun statement => isBlank statement = false) out.
Proof.
  induction fuel as [|fuel IH]; intros r acc out Hacc; cbn [parseLoop]; [discriminate|].
  set (stmt := fst (getStatements getQueryParts r SEMICOLON)).
  assert (Hacc' : Forall (fun statement => isBlank statement = false)
                         (if negb (isBlank stmt) then acc ++ [stmt] else acc)).
  { destruct (isBlank stmt) eqn:Eb; simpl; auto.
    apply Forall_app; auto. }
  destruct (snd (getStatements getQueryParts r SEMICOLON)) as [rest|].
  - destruct (isBlank rest).
    + intros H; injection H as <-; exact Hacc'.
    + apply IH, Hacc'.
  - intros H; injection H as <-; exact Hacc'.
Qed.

(** A trimmed, non-blank text without delimiter is returned as it is. *)
Lemma parse_single (statement : jsstring) :
  scan SEMICOLON (Array_from statement) = None ->
  trim statement = statement -> isBlank statement = false ->
  Rev2.parse statement = Some [statement].
Proof.
  intros Hq Ht Hb.
  unfold Rev2.parse, parse; cbn [parseLoop]; fold Rev2.getStatements.
  pose proof (getStatements_cases statement) as H; rewrite Hq in H.
  rewrite H; simpl. rewrite Ht, Hb; reflexivity.
Qed.

Lemma parseLoop_enough_fuel (fuel : nat) : forall restOfQuery queries,
  length restOfQuery < fuel ->
  exists out, parseLoop2 fuel restOfQuery queries = Some out.
Proof.
  induction fuel as [|fuel IH]; intros r acc Hlen; [lia|].
  cbn [parseLoop]; fold Rev2.getStatements.
  destruct (snd (Rev2.getStatements r SEMICOLON)) as [rest|] eqn:Er; [|eauto].
  destruct (isBlank rest); [eauto|].
  apply IH. apply getStatements_rest_shorter in Er; lia.
Qed.

(** More rounds than needed change nothing. *)
Lemma parseLoop_more_fuel (fuel : nat) : forall fuel' restOfQuery queries out,
  parseLoop2 fuel restOfQuery queries = Some out -> fuel <= fuel' ->
  parseLoop2 fuel' restOfQuery queries = Some out.
Proof.
  induction fuel as [|fuel IH]; intros fuel' r acc out; [discriminate|].
  destruct fuel' as [|fuel']; [lia|].
  cbn [parseLoop].
  destruct (snd (getStatements Rev2.getQueryParts r SEMICOLON)) as [rest|]; auto.
  destruct (isBlank rest); auto.
  intros H Hle; apply IH; [exact H | lia].
Qed.

(** ** The scanner states *)

Lemma scanBody_exclusive d p c tl i st st' k :
  exclusive st -> scanBody d p c tl i st = Continue st' k -> exclusive st'.
Proof.
  unfold exclusive; intros Hx H; body_cases; try discriminate;
    injection H as <- <-; simpl; auto.
  all: repeat match goal with
         | E : _ && _ = true |- _ => apply andb_true_iff in E as [? ?]
         | E : negb _ = true |- _ => apply negb_true_iff in E
         end; try congruence; auto using andb_false_r.
  match goal with E : isInString _ = false |- _ => rewrite E; reflexivity end.
Qed.

Lemma iterations_exclusive d (l : list jsstring) : forall skip prev idx st,
  exclusive st -> Forall exclusive (iterations (scanBody d) skip prev idx st l).
Proof.
  induction l as [|c tl IH]; intros skip prev idx st Hx; cbn [iterations]; auto.
  destruct skip as [|k]; auto.
  constructor; auto.
  destruct (scanBody d prev c tl idx st) as [st' k|r] eqn:E; auto.
  apply IH; eapply scanBody_exclusive; eauto.
Qed.

Lemma scanLoop_exclusive d (l : list jsstring) : forall skip prev idx st st',
  exclusive st -> forLoop (scanBody d) skip prev idx st l = inl st' -> exclusive st'.
Proof.
  induction l as [|c tl IH]; intros skip prev idx st st' Hx; cbn [forLoop].
  - intros H; injection H as <-; exact Hx.
  - destruct skip as [|k]; [|apply IH, Hx].
    destruct (scanBody d prev c tl idx st) as [st2 k|r] eqn:E; [|discriminate].
    apply IH; eapply scanBody_exclusive; eauto.
Qed.

(** ** The examples of the specification *)

Example parse_no_delimiter :
  Rev2.parse (js "  SELECT 1  ") = Some [js "SELECT 1"].
Proof. reflexivity. Qed.

Example parse_three_statements :
  Rev2.parse (js "SELECT 1; INSERT INTO t VALUES (2) ;DROP TABLE t")
  = Some [js "SELECT 1"; js "INSERT INTO t VALUES (2)"; js "DROP TABLE t"].
Proof. reflexivity. Qed.

Example parse_semicolon_in_comment :
  Rev2.parse (js "SELECT 1 -- a;b" ++ NEWLINE ++ js "; SELECT 2")
  = Some [js "SELECT 1 -- a;b"; js "SELECT 2"].
Proof. reflexivity. Qed.

Example parse_semicolon_in_triple_quotes :
  Rev2.parse (js "SELECT '''a';'b'''; SELECT 2")
  = Some [js "SELECT '''a';'b'''"; js "SELECT 2"].
Proof. reflexivity. Qed.

Example parse_rev1_keeps_delimiters :
  Rev1.parse (js "SELECT 1;; SELECT 2") = Some [js "SELECT 1;"; js ";"; js "SELECT 2"].
Proof. reflexivity. Qed.

Example classify_examples :
  getStatementType upperCaseLatin (js "  select * from t") = QUERY
  /\ getStatementType upperCaseLatin (js "Insert into t values (1)") = DML
  /\ getStatementType upperCaseLatin (js "create table t (...)") = DDL
  /\ getStatementType upperCaseLatin (js "explain select 1") = UNSPECIFIED
  /\ getStatementType upperCaseLatin (js "/* c */ -- d" ++ NEWLINE ++ js "with x as (select 1) select * from x") = QUERY
  /\ getStatementType upperCaseLatin (js "") = UNSPECIFIED.
Proof. repeat split; reflexivity. Qed.

(** ** The classifier *)

Ltac apart n :=
  match goal with
  | H1 : startsWith ?s ?p = true, H2 : startsWith ?s ?q = true |- _ =>
      exfalso; apply (@startsWith_apart n s p q); simpl;
      [lia | lia | discriminate | exact H1 | exact H2]
  end.

(** C3, as the code has it: the upper-cased first keyword outside comments
    is tested for a prefix, not for membership.  [getStatementType] returns
    QUERY iff it starts with SELECT or WITH, DML iff it starts with INSERT,
    UPDATE or DELETE, DDL iff it starts with CREATE, ALTER or DROP, and
    UNSPECIFIED iff it starts with none of the eight words. *)
Theorem getStatementType_by_prefix (upperCaseOf : jsstring -> jsstring) (sql : jsstring) :
  let statement := toUpperCase upperCaseOf (getFirstKeywordOutsideComments sql) in
  (getStatementType upperCaseOf sql = QUERY
   <-> startsWith statement (js "SELECT") = true
       \/ startsWith statement (js "WITH") = true)
  /\ (getStatementType upperCaseOf sql = DML
      <-> startsWith statement (js "INSERT") = true
          \/ startsWith statement (js "UPDATE") = true
          \/ startsWith statement (js "DELETE") = true)
  /\ (getStatementType upperCaseOf sql = DDL
      <-> startsWith statement (js "CREATE") = true
          \/ startsWith statement (js "ALTER") = true
          \/ startsWith statement (js "DROP") = true)
  /\ (getStatementType upperCaseOf sql = UNSPECIFIED
      <-> startsWith statement (js "SELECT") = false
          /\ startsWith statement (js "WITH") = false
          /\ startsWith statement (js "INSERT") = false
          /\ startsWith statement (js "UPDATE") = false
          /\ startsWith statement (js "DELETE") = false
          /\ startsWith statement (js "CREATE") = false
          /\ startsWith statement (js "ALTER") = false
          /\ startsWith statement (js "DROP") = false).
Proof.
  intros statement.
  destruct sql as [|u sql'].
  - assert (Hs : statement = []) by reflexivity.
    rewrite Hs; cbn.
    repeat split; intros; try discriminate; intuition discriminate.
  - unfold getStatementType; fold statement.
    destruct (startsWith statement (js "SELECT")) eqn:E1;
    destruct (startsWith statement (js "WITH")) eqn:E2;
    destruct (startsWith statement (js "INSERT")) eqn:E3;
    destruct (startsWith statement (js "UPDATE")) eqn:E4;
    destruct (startsWith statement (js "DELETE")) eqn:E5;
    destruct (startsWith statement (js "CREATE")) eqn:E6;
    destruct (startsWith statement (js "ALTER")) eqn:E7;
    destruct (startsWith statement (js "DROP")) eqn:E8;
    try (apart 2);
    cbn [orb]; repeat split; intros; try discriminate; try tauto;
      intuition discriminate.
Qed.

(** C3 as stated fails: WITHDRAWAL begins with WITH and is classified as a
    query, although it is none of the eight keywords. *)
Lemma getStatementType_not_membership :
  getFirstKeywordOutsideComments (js "WITHDRAWAL") = js "WITHDRAWAL"
  /\ getStatementType upperCaseLatin (js "WITHDRAWAL") = QUERY
  /\ classifyByMembership upperCaseLatin (js "WITHDRAWAL") = UNSPECIFIED
  /\ ~ (getStatementType upperCaseLatin (js "WITHDRAWAL") = QUERY
        <-> (toUpperCase upperCaseLatin (getFirstKeywordOutsideComments (js "WITHDRAWAL"))
             = js "SELECT"
             \/ toUpperCase upperCaseLatin (getFirstKeywordOutsideComments (js "WITHDRAWAL"))
             = js "WITH")).
Proof.
  repeat split; try reflexivity.
  intros [H _]. destruct (H eq_refl) as [E|E]; vm_compute in E; discriminate.
Qed.

(** C4 fails on the code: inside a [/* */] comment the marker [--] is taken
    as the start of a line comment by both scanners and replaces the
    remembered comment character; the closing [*/] is then not seen, the
    statement has no keyword outside comments, and the splitter does not
    see the semicolon after the comment. *)
Theorem comment_marker_inside_comment :
  keywordBody (Some SPACE) DASH [DASH; SPACE] 3 (mkKw true (Some SLASH) [])
  = Continue (mkKw true (Some DASH) []) 0
  /\ scanBody SEMICOLON (Some SPACE) DASH [DASH; SPACE] 3
              (mkScan true (Some SLASH) false None false)
     = Continue (mkScan true (Some DASH) false None false) 0
  /\ getFirstKeywordOutsideComments (js "/* -- */ SELECT 1") = []
  /\ getStatementType upperCaseLatin (js "/* -- */ SELECT 1") = UNSPECIFIED
  /\ Rev2.parse (js "/* -- */ SELECT 1; SELECT 2")
     = Some [js "/* -- */ SELECT 1; SELECT 2"].
Proof. repeat split; reflexivity. Qed.

(** ** The splitter *)

(** The iteration in which the loop is left was entered outside strings and
    comments: a semicolon inside a string literal or a comment is never
    taken for the delimiter. *)
Lemma scanLoop_leaves_outside (l : list jsstring) : forall skip prev idx st0 sp,
  scanLoop skip prev idx st0 l = inr sp ->
  exists sts st,
    iterations (scanBody SEMICOLON) skip prev idx st0 l = sts ++ [st]
    /\ isInString st = false /\ isInComment st = false.
Proof.
  induction l as [|c tl IH]; intros skip prev idx st0 sp; cbn [forLoop iterations];
    [discriminate|].
  destruct skip as [|k]; [|apply IH].
  destruct (scanBody SEMICOLON prev c tl idx st0) as [st' k|r] eqn:E.
  - intros H; apply IH in H as (sts & st & -> & Hs & Hc).
    exists (st0 :: sts), st; auto.
  - intros _; apply scanBody_Leave in E as (_ & _ & Hs & Hc).
    exists [], st0; auto.
Qed.

(** Where the script has no surrogate pair, elements and code units have
    the same indices and the text is cut at the delimiter. *)
Lemma cut_at_delimiter_without_pairs (query : jsstring) (sp : nat) :
  Array_from query = List.map (fun u => [u]) query ->
  scan SEMICOLON (Array_from query) = Some sp ->
  query = firstn (sp - 1) query ++ SEMICOLON ++ skipn sp query
  /\ Rev2.getStatements query SEMICOLON
     = (trim (firstn (sp - 1) query), Some (skipn sp query)).
Proof.
  intros Hbmp Hsp.
  pose proof (getStatements_cases query) as Hc; rewrite Hsp in Hc.
  split; [|exact Hc].
  apply scan_found in Hsp as [Hpos Hnth].
  rewrite Hbmp, nth_error_map in Hnth.
  destruct (nth_error query (sp - 1)) as [u|] eqn:E; [|discriminate].
  injection Hnth as ->.
  replace sp with (S (sp - 1)) at 2 by lia.
  apply nth_error_cut, E.
Qed.

(** C1 fails on the code when characters outside the Basic Multilingual
    Plane precede the delimiter: the delimiter is found at an index into
    [Array.from(query)] and the text is cut at that index in code units, so
    here the cut falls on the semicolon inside the string literal. *)
Theorem semicolon_in_string_astral :
  Rev2.parse (js "SELECT '" ++ emoji ++ emoji ++ js ";';")
  = Some [js "SELECT '" ++ emoji ++ emoji; js "';"]
  /\ Rev2.parse (js "SELECT ';' FROM T") = Some [js "SELECT ';' FROM T"].
Proof. split; reflexivity. Qed.

(** C5 fails on the splitter: on [*/] it only moves on by one element, the
    [/] is examined again outside the comment and, followed by [*], opens a
    new comment that hides the semicolon.  The classifier does step over
    the [/]: for it the [*] after the comment is the first keyword. *)
Theorem comment_close_slash_reexamined :
  Rev2.parse (js "/*a*/* x;y") = Some [js "/*a*/* x;y"]
  /\ getFirstKeywordOutsideComments (js "/*a*/* x;y") = js "*".
Proof. split; reflexivity. Qed.

(** C7: on [SELECT 1; SELECT 2] the first revision keeps the semicolon at
    the end of the first statement and the second one drops it, so the two
    are different functions. *)
Theorem revisions_disagree_on_delimiter :
  Rev1.parse (js "SELECT 1; SELECT 2") = Some [js "SELECT 1;"; js "SELECT 2"]
  /\ Rev2.parse (js "SELECT 1; SELECT 2") = Some [js "SELECT 1"; js "SELECT 2"]
  /\ ~ (forall query, Rev1.parse query = Rev2.parse query).
Proof.
  split; [reflexivity | split; [reflexivity |]].
  intros H; specialize (H (js "SELECT 1; SELECT 2")); vm_compute in H; discriminate.
Qed.

(** C2: a statement that [parse] returns is the statement of one round, on
    a buffer that is the end of the script.  When the round found no
    delimiter it is the trimmed buffer.  When the round found the delimiter
    at index [i] of [Array.from(buffer)], the buffer is [before], the
    delimiter and [after], where [before] is the text of the [i] code points
    ahead of the delimiter, and the statement is cut and trimmed from
    [before] alone: the delimiter is not part of it. *)
Theorem statement_excludes_delimiter (query : jsstring) (queries : list jsstring)
        (statement : jsstring) :
  Rev2.parse query = Some queries ->
  In statement queries ->
  exists buffer,
    (exists pre, query = pre ++ buffer)
    /\ statement = fst (Rev2.getStatements buffer SEMICOLON)
    /\ match scan SEMICOLON (Array_from buffer) with
       | None => statement = trim buffer
       | Some splittingIndex =>
           let i := splittingIndex - 1 in
           let before := concat (firstn i (Array_from buffer)) in
           nth_error (Array_from buffer) i = Some SEMICOLON
           /\ (exists after, buffer = before ++ SEMICOLON ++ after)
           /\ statement = trim (firstn i before)
       end.
Proof.
  intros Hp Hin.
  destruct (@parseLoop_elements (S (length query)) query [] queries statement Hp Hin) as [[]|(buffer & pre & Hq & Hs & _)].
  exists buffer; split; [eauto|]; split; [exact Hs|].
  pose proof (getStatements_cases buffer) as Hc.
  destruct (scan SEMICOLON (Array_from buffer)) as [sp|] eqn:E;
    rewrite Hc in Hs; simpl in Hs; [|exact Hs].
  apply scan_found in E as [Hsp Hnth]; cbv zeta.
  split; [exact Hnth|].
  assert (Hsplit : Array_from buffer
                   = firstn (sp - 1) (Array_from buffer)
                     ++ SEMICOLON :: skipn (S (sp - 1)) (Array_from buffer)).
  { apply nth_error_cut, Hnth. }
  split.
  - exists (concat (skipn (S (sp - 1)) (Array_from buffer))).
    rewrite <- (concat_Array_from buffer) at 1.
    rewrite Hsplit at 1. rewrite concat_app; reflexivity.
  - rewrite Hs. f_equal.
    rewrite <- (concat_Array_from buffer) at 1.
    rewrite Hsplit at 1. rewrite concat_app, firstn_app.
    pose proof (@concat_firstn_length buffer (sp - 1)) as Hlen.
    replace (sp - 1 - length (concat (firstn (sp - 1) (Array_from buffer)))) with 0 by lia.
    rewrite firstn_O, app_nil_r; reflexivity.
Qed.

Lemma statement_excludes_delimiter_witness :
  exists buffer,
    (exists pre, js "SELECT 1; SELECT 2" = pre ++ buffer)
    /\ js "SELECT 1" = fst (Rev2.getStatements buffer SEMICOLON)
    /\ match scan SEMICOLON (Array_from buffer) with
       | None => js "SELECT 1" = trim buffer
       | Some splittingIndex =>
           let i := splittingIndex - 1 in
           let before := concat (firstn i (Array_from buffer)) in
           nth_error (Array_from buffer) i = Some SEMICOLON
           /\ (exists after, buffer = before ++ SEMICOLON ++ after)
           /\ js "SELECT 1" = trim (firstn i before)
       end.
Proof.
  apply (@statement_excludes_delimiter (js "SELECT 1; SELECT 2")
           [js "SELECT 1"; js "SELECT 2"]); [reflexivity | simpl; auto].
Defined.

(** C6: no statement in the result of [parse] is empty or white space
    only, in either revision, and [SELECT 1;; SELECT 2] gives exactly two
    statements. *)
Theorem parse_drops_blank_statements :
  (forall query queries,
      Rev2.parse query = Some queries ->
      Forall (fun statement => isBlank statement = false) queries)
  /\ (forall query queries,
         Rev1.parse query = Some queries ->
         Forall (fun statement => isBlank statement = false) queries)
  /\ Rev2.parse (js "SELECT 1;; SELECT 2") = Some [js "SELECT 1"; js "SELECT 2"].
Proof.
  split; [|split; [|reflexivity]]; intros query queries;
    apply parseLoop_nonblank; constructor.
Qed.

Lemma parse_drops_blank_statements_witness :
  Forall (fun statement => isBlank statement = false) [js "a"; js "b"].
Proof.
  apply (proj1 parse_drops_blank_statements (js " a ; ;; b ") [js "a"; js "b"]).
  reflexivity.
Defined.

(** C8: splitting a statement of a result again gives that statement and
    nothing else. *)
Theorem parse_idempotent (query : jsstring) (queries : list jsstring)
        (statement : jsstring) :
  Rev2.parse query = Some queries ->
  In statement queries ->
  Rev2.parse statement = Some [statement].
Proof.
  intros Hp Hin.
  destruct (@parseLoop_elements (S (length query)) query [] queries statement Hp Hin) as [[]|(buffer & _ & _ & -> & Hb)].
  apply parse_single;
    auto using getStatements_statement_quiet, getStatements_statement_trimmed.
Qed.

Lemma parse_idempotent_witness :
  Rev2.parse (js "SELECT ';' FROM T") = Some [js "SELECT ';' FROM T"].
Proof.
  apply (@parse_idempotent (js "SELECT 1; SELECT ';' FROM T ;")
           [js "SELECT 1"; js "SELECT ';' FROM T"]); [reflexivity | simpl; auto].
Defined.

(** C9: in no iteration of the loop of [getStatements], on any script, are
    [isInString] and [isInComment] both set, nor are they when the loop has
    run to the end of the script. *)
Theorem string_and_comment_exclusive (query : jsstring) :
  Forall (fun st => isInString st && isInComment st = false)
         (scanStates SEMICOLON (Array_from query))
  /\ match forLoop (scanBody SEMICOLON) 0 None 0 scanInit (Array_from query) with
     | inl st => isInString st && isInComment st = false
     | inr _ => True
     end.
Proof.
  split; [apply iterations_exclusive; reflexivity|].
  destruct (forLoop (scanBody SEMICOLON) 0 None 0 scanInit (Array_from query))
    as [st|sp] eqn:E; [|exact I].
  apply (@scanLoop_exclusive SEMICOLON (Array_from query) 0 None 0 scanInit st);
    [reflexivity | exact E].
Qed.

(** C10: [parse] returns a result on every script, the rounds it was given
    being enough, because the remainder of every round is shorter than its
    input; [getStatementType], a recursion over the characters of the
    statement, has a value on every statement. *)
Theorem parse_and_classify_total (upperCaseOf : jsstring -> jsstring) (text : jsstring) :
  (exists queries, Rev2.parse text = Some queries)
  /\ match snd (Rev2.getStatements text SEMICOLON) with
     | Some restOfQuery => length restOfQuery < length text
     | None => True
     end
  /\ (exists kind, getStatementType upperCaseOf text = kind).
Proof.
  split; [apply parseLoop_enough_fuel; lia|]; split; [|eauto].
  destruct (snd (Rev2.getStatements text SEMICOLON)) as [rest|] eqn:E; [|exact I].
  apply getStatements_rest_shorter, E.
Qed.

(** * Further properties *)

(** ** The splitter: scripts without delimiter *)

Lemma In_concat_Array_from (s : jsstring) (u : N) :
  In [u] (Array_from s) -> In u s.
Proof.
  intros H. rewrite <- (concat_Array_from s).
  apply in_concat. exists [u]; simpl; auto.
Qed.

Lemma scan_no_semicolon (text : jsstring) :
  ~ In 59%N text -> scan SEMICOLON (Array_from text) = None.
Proof.
  intros Hno. destruct (scan SEMICOLON (Array_from text)) as [sp|] eqn:E; [|reflexivity].
  apply scan_found in E as [_ E]. apply nth_error_In in E.
  exfalso; apply Hno, In_concat_Array_from, E.
Qed.

Lemma isBlank_trim (s : jsstring) : isBlank (trim s) = isBlank s.
Proof. unfold isBlank; rewrite trim_idem; reflexivity. Qed.

(** A buffer without delimiter ends the loop with its trimmed text. *)
Lemma parseLoop_quiet (getQueryParts : jsstring -> nat -> nat -> Parts) (fuel : nat)
      (restOfQuery : jsstring) (queries : list jsstring) :
  scan SEMICOLON (Array_from restOfQuery) = None ->
  parseLoop getQueryParts (S fuel) restOfQuery queries
  = Some (if isBlank restOfQuery then queries else queries ++ [trim restOfQuery]).
Proof.
  intros H; cbn [parseLoop]; unfold getStatements; rewrite H; simpl.
  rewrite isBlank_trim. destruct (isBlank restOfQuery); reflexivity.
Qed.

(** X1: a script that holds no semicolon at all is returned as one
    statement, trimmed; nothing is returned when it is empty or white space
    only.  This does not depend on [getQueryParts]: it holds for both
    revisions. *)
Theorem parse_without_semicolon (getQueryParts : jsstring -> nat -> nat -> Parts)
        (query : jsstring) :
  ~ In 59%N query ->
  parse getQueryParts query = Some (if isBlank query then [] else [trim query]).
Proof.
  intros H; unfold parse. rewrite parseLoop_quiet by (apply scan_no_semicolon, H).
  reflexivity.
Qed.

Lemma parse_without_semicolon_witness :
  Rev2.parse (js "  SELECT 'a'  ") = Some [js "SELECT 'a'"].
Proof.
  apply (@parse_without_semicolon Rev2.getQueryParts (js "  SELECT 'a'  ")).
  vm_compute; intuition discriminate.
Defined.

(** ** The splitter: what the rounds return *)

Lemma cutsBefore_Rev2 : cutsBefore Rev2.getQueryParts.
Proof.
  intros q k; exists (k - 1); split; [lia|].
  unfold Rev2.getQueryParts, substringFrom. rewrite substring_0, Nat.add_0_r; reflexivity.
Qed.

Lemma cutsBefore_Rev1 : cutsBefore Rev1.getQueryParts.
Proof.
  intros q k; exists k; split; [lia|].
  unfold Rev1.getQueryParts, substringFrom. rewrite substring_0, Nat.add_0_r; reflexivity.
Qed.

(** A round returns a trimmed piece of the front of its buffer. *)
Lemma getStatements_piece (getQueryParts : jsstring -> nat -> nat -> Parts)
      (buffer : jsstring) :
  cutsBefore getQueryParts ->
  exists j, fst (getStatements getQueryParts buffer SEMICOLON) = trim (firstn j buffer)
            /\ match snd (getStatements getQueryParts buffer SEMICOLON) with
               | Some rest => exists k, j <= k /\ rest = skipn k buffer
               | None => True
               end.
Proof.
  intros Hc; unfold getStatements.
  destruct (scan SEMICOLON (Array_from buffer)) as [sp|].
  - destruct (Hc buffer sp) as (j & Hj & ->); simpl. eauto.
  - exists (length buffer); simpl. rewrite firstn_all; auto.
Qed.

Lemma trim_split (s : jsstring) : exists ws1 ws2, s = ws1 ++ trim s ++ ws2.
Proof.
  destruct (trimStart_split s) as [ws1 [H1 _]].
  destruct (trimEnd_split (trimStart s)) as [ws2 [H2 _]].
  exists ws1, ws2. unfold trim. rewrite <- H2; exact H1.
Qed.

Lemma inOrder_prepend (statements : list jsstring) (x text : jsstring) :
  inOrder statements text -> inOrder statements (x ++ text).
Proof.
  destruct statements as [|s rest]; simpl; auto.
  intros (pre & post & -> & H). exists (x ++ pre), post.
  rewrite <- app_assoc; auto.
Qed.

Lemma inOrder_cons (statement : jsstring) (rest : list jsstring)
      (buffer : jsstring) (j k : nat) :
  j <= k -> inOrder rest (skipn k buffer) ->
  inOrder (trim (firstn j buffer) :: rest) buffer.
Proof.
  intros Hjk H.
  destruct (trim_split (firstn j buffer)) as (ws1 & ws2 & Hs).
  exists ws1, (ws2 ++ skipn j buffer); split.
  - rewrite <- (firstn_skipn j buffer) at 1. rewrite Hs at 1.
    rewrite <- !app_assoc; reflexivity.
  - apply inOrder_prepend.
    assert (E : skipn j buffer = firstn (k - j) (skipn j buffer) ++ skipn k buffer).
    { replace (skipn k buffer) with (skipn (k - j) (skipn j buffer)).
      - symmetry; apply firstn_skipn.
      - rewrite skipn_skipn; f_equal; lia. }
    rewrite E; apply inOrder_prepend, H.
Qed.

Lemma parseLoop_inOrder (getQueryParts : jsstring -> nat -> nat -> Parts) (fuel : nat) :
  cutsBefore getQueryParts ->
  forall restOfQuery queries out,
  parseLoop getQueryParts fuel restOfQuery queries = Some out ->
  exists new, out = queries ++ new /\ inOrder new restOfQuery
              /\ Forall (fun statement => trim statement = statement) new.
Proof.
  intros Hc; induction fuel as [|fuel IH]; intros r acc out; cbn [parseLoop];
    [discriminate|].
  destruct (getStatements_piece r Hc) as (j & Hs & Hr).
  rewrite Hs.
  set (stmt := trim (firstn j r)) in *.
  assert (Hlast : exists new,
             (if negb (isBlank stmt) then acc ++ [stmt] else acc) = acc ++ new
             /\ inOrder new r
             /\ Forall (fun statement => trim statement = statement) new).
  { destruct (isBlank stmt); simpl.
    - exists []; rewrite app_nil_r; simpl; auto.
    - exists [stmt]; repeat split; [|repeat constructor; apply trim_idem].
      apply (@inOrder_cons stmt [] r j j); simpl; auto. }
  destruct (snd (getStatements getQueryParts r SEMICOLON)) as [rest|] eqn:Er.
  - destruct (isBlank rest).
    + intros H; injection H as <-; exact Hlast.
    + destruct Hr as (k & Hjk & ->).
      intros H; apply IH in H as (new & -> & Hin & Ht).
      destruct (isBlank stmt); simpl.
      * exists new; repeat split; auto.
        rewrite <- (firstn_skipn k r); apply inOrder_prepend, Hin.
      * exists (stmt :: new); rewrite <- app_assoc; repeat split; auto.
        -- apply inOrder_cons with (k := k); auto.
        -- constructor; [apply trim_idem | exact Ht].
  - intros H; injection H as <-; exact Hlast.
Qed.

(** X2: in both revisions the statements [parse] returns are pieces of the
    script that follow one another in it, each without white space at
    either end: nothing is made up and nothing is reordered. *)
Theorem parse_statements_in_order (query : jsstring) (queries : list jsstring) :
  (Rev2.parse query = Some queries ->
   inOrder queries query /\ Forall (fun statement => trim statement = statement) queries)
  /\ (Rev1.parse query = Some queries ->
      inOrder queries query /\ Forall (fun statement => trim statement = statement) queries).
Proof.
  split; intros H.
  - destruct (@parseLoop_inOrder Rev2.getQueryParts (S (length query)) cutsBefore_Rev2
                query [] queries H) as (new & -> & Hin & Ht); auto.
  - destruct (@parseLoop_inOrder Rev1.getQueryParts (S (length query)) cutsBefore_Rev1
                query [] queries H) as (new & -> & Hin & Ht); auto.
Qed.

Lemma parse_statements_in_order_witness :
  inOrder [js "a"; js "b '; '"] (js " a ;; b '; ' ;")
  /\ Forall (fun statement => trim statement = statement) [js "a"; js "b '; '"].
Proof.
  apply (proj1 (@parse_statements_in_order (js " a ;; b '; ' ;") [js "a"; js "b '; '"])).
  reflexivity.
Defined.

(** ** The splitter: a script put together from two *)

Lemma Array_from_app_boundary (a : jsstring) (x : N) (b : jsstring) :
  isLowSurrogate x = false ->
  Array_from (a ++ x :: b) = Array_from a ++ Array_from (x :: b).
Proof.
  intros Hx.
  induction a as [| u | u v s Hp IH | u v s Hp IH] using Array_from_ind.
  - reflexivity.
  - change ([u] ++ x :: b) with (u :: x :: b).
    rewrite Array_from_unit by (rewrite Hx; apply andb_false_r). reflexivity.
  - change ((u :: v :: s) ++ x :: b) with (u :: v :: (s ++ x :: b)).
    rewrite !Array_from_pair by assumption. rewrite IH; reflexivity.
  - change ((u :: v :: s) ++ x :: b) with (u :: v :: (s ++ x :: b)).
    rewrite !Array_from_unit by assumption.
    change (v :: s ++ x :: b) with ((v :: s) ++ x :: b). rewrite IH; reflexivity.
Qed.

Lemma scanBody_skip d p c tl i st st' k :
  scanBody d p c tl i st = Continue st' k ->
  k = 0 \/ (k = 2 /\ twoMore c tl = true).
Proof.
  intros H; body_cases; try discriminate; injection H as <- <-; auto.
Qed.

Lemma scanBody_at_delimiter p tl i st :
  isInString st = false -> isInComment st = false ->
  scanBody SEMICOLON p SEMICOLON tl i st = Leave (i + 1).
Proof.
  intros Hs Hc; unfold scanBody; rewrite Hs, Hc; simpl.
  rewrite !andb_false_r; reflexivity.
Qed.

(** A delimiter after a text whose scan ends outside strings and comments
    is where the loop is left. *)
Lemma scanLoop_then_delimiter (la lb : list jsstring) : forall skip prev idx st0 st,
  stringCharIsQuote st0 -> skip <= length la ->
  scanLoop skip prev idx st0 la = inl st ->
  isInString st = false -> isInComment st = false ->
  scanLoop skip prev idx st0 (la ++ SEMICOLON :: lb) = inr (idx + length la + 1).
Proof.
  induction la as [|c tl IH]; intros skip prev idx st0 st Hw Hk H Hs Hc;
    cbn [forLoop app length] in *.
  - injection H as ->. replace skip with 0 by lia.
    rewrite scanBody_at_delimiter by assumption. f_equal; lia.
  - destruct skip as [|k].
    + destruct (scanBody SEMICOLON prev c tl idx st0) as [st' k|r] eqn:E; [|discriminate].
      rewrite (@scanBody_lookahead SEMICOLON prev c (tl ++ SEMICOLON :: lb) tl idx st0).
      * rewrite E.
        assert (Hw' : stringCharIsQuote st') by (eapply scanBody_stringChar; eauto).
        assert (Hk' : k <= length tl).
        { apply scanBody_skip in E as [->|[-> E]]; [lia|].
          destruct tl as [|a [|b tl']]; simpl in *; try discriminate; lia. }
        rewrite (IH k (Some c) (S idx) st' st Hw' Hk' H Hs Hc). f_equal; lia.
      * intros k' Hk'; destruct tl as [|a tl]; [|reflexivity]; simpl.
        destruct Hk' as [<-|[<-|[<-|[<-|[]]]]]; reflexivity.
      * intros Hq.
        assert (Hquote : isQuoteChar c = true).
        { destruct Hq as [Hq|Hq]; [exact Hq|].
          unfold opt_eqb in Hq; destruct (stringChar st0) as [q|] eqn:Eq; [|discriminate].
          destruct (str_eqb_spec c q) as [->|]; [|discriminate]; auto. }
        assert (Hsemi : str_eqb SEMICOLON c = false).
        { apply isQuoteChar_true in Hquote as [ -> | [ -> | -> ] ]; reflexivity. }
        destruct tl as [|a [|b tl']]; [destruct lb | |]; cbn [twoMore app];
          rewrite ?Hsemi, ?andb_false_r; reflexivity.
    + assert (Hk' : k <= length tl) by lia.
      rewrite (IH k (Some c) (S idx) st0 st Hw Hk' H Hs Hc). f_equal; lia.
Qed.

Lemma scan_app_delimiter (a b : jsstring) :
  endsOutside a ->
  scan SEMICOLON (Array_from (a ++ SEMICOLON ++ b)) = Some (length (Array_from a) + 1).
Proof.
  unfold endsOutside, scan; intros H.
  destruct (scanLoop 0 None 0 scanInit (Array_from a)) as [st|] eqn:E; [|contradiction].
  destruct H as [Hs Hc].
  change (a ++ SEMICOLON ++ b) with (a ++ 59%N :: b).
  rewrite Array_from_app_boundary by reflexivity.
  rewrite Array_from_not_high by reflexivity.
  change [59%N] with SEMICOLON.
  pose proof (@scanLoop_then_delimiter (Array_from a) (Array_from b) 0 None 0 scanInit st
                stringCharIsQuote_init (Nat.le_0_l _) E Hs Hc) as X.
  unfold jsstring in *; rewrite X; reflexivity.
Qed.

Lemma endsOutside_quiet (a : jsstring) :
  endsOutside a -> scan SEMICOLON (Array_from a) = None.
Proof.
  unfold endsOutside, scan.
  destruct (scanLoop 0 None 0 scanInit (Array_from a)); [reflexivity|contradiction].
Qed.

(** The statements found so far are only handed on. *)
Lemma parseLoop_acc (getQueryParts : jsstring -> nat -> nat -> Parts) (fuel : nat) :
  forall restOfQuery queries,
  parseLoop getQueryParts fuel restOfQuery queries
  = option_map (app queries) (parseLoop getQueryParts fuel restOfQuery []).
Proof.
  induction fuel as [|fuel IH]; intros r acc; cbn [parseLoop]; [reflexivity|].
  set (stmt := fst (getStatements getQueryParts r SEMICOLON)).
  destruct (snd (getStatements getQueryParts r SEMICOLON)) as [rest|].
  - destruct (isBlank rest).
    + destruct (isBlank stmt); simpl; rewrite ?app_nil_r; reflexivity.
    + rewrite IH. rewrite (IH rest (if negb (isBlank stmt) then [] ++ [stmt] else [])).
      destruct (parseLoop getQueryParts fuel rest []) as [out|]; [|reflexivity].
      destruct (isBlank stmt); simpl; rewrite ?app_nil_r, <- ?app_assoc; reflexivity.
  - destruct (isBlank stmt); simpl; rewrite ?app_nil_r; reflexivity.
Qed.

Lemma parse_fuel (fuel : nat) (query : jsstring) :
  length query < fuel -> parseLoop2 fuel query [] = Rev2.parse query.
Proof.
  intros H. destruct (@parseLoop_enough_fuel (S (length query)) query []) as [out E]; [lia|].
  unfold Rev2.parse, parse. rewrite E.
  apply parseLoop_more_fuel with (fuel := S (length query)); [exact E | lia].
Qed.

Lemma isBlank_forallb (s : jsstring) : isBlank s = true -> forallb isWhiteSpace s = true.
Proof.
  unfold isBlank; intros H.
  destruct (trim s) eqn:E; [|discriminate].
  destruct (trimStart_split s) as [ws [Hs Hws]].
  unfold trim in E.
  destruct (trimEnd_split (trimStart s)) as [ws' [Hs' Hws']].
  rewrite E in Hs'; simpl in Hs'.
  rewrite Hs, Hs', forallb_app, Hws, Hws'; reflexivity.
Qed.

Lemma isBlank_iff (s : jsstring) : isBlank s = forallb isWhiteSpace s.
Proof.
  destruct (forallb isWhiteSpace s) eqn:E.
  - unfold isBlank, trim. rewrite trimStart_blank by assumption. reflexivity.
  - destruct (isBlank s) eqn:Eb; [|reflexivity].
    apply isBlank_forallb in Eb; congruence.
Qed.

Lemma parse_blank (query : jsstring) : isBlank query = true -> Rev2.parse query = Some [].
Proof.
  intros H. unfold Rev2.parse, parse.
  rewrite parseLoop_quiet; [rewrite H; reflexivity|].
  apply scan_no_semicolon; intros Hin. apply isBlank_forallb in H. rewrite forallb_forall in H.
  apply H in Hin; discriminate.
Qed.

Lemma getStatements_app_delimiter (a b : jsstring) :
  endsOutside a -> Array_from a = List.map (fun u => [u]) a ->
  Rev2.getStatements (a ++ SEMICOLON ++ b) SEMICOLON = (trim a, Some b).
Proof.
  intros Ha Hbmp.
  pose proof (getStatements_cases (a ++ SEMICOLON ++ b)) as H.
  rewrite scan_app_delimiter in H by assumption.
  rewrite Hbmp, length_map in H. rewrite H.
  replace (length a + 1 - 1) with (length a) by lia.
  rewrite firstn_app, Nat.sub_diag, firstn_all, firstn_O, app_nil_r.
  rewrite skipn_app, skipn_all2 by lia.
  replace (length a + 1 - length a) with 1 by lia. reflexivity.
Qed.

(** X3: where the scan of [a] ends outside strings and comments and [a]
    has no surrogate pair, the script [a;b] is split into the statement of
    [a] followed by the statements of [b]. *)
Theorem parse_app_delimiter (a b : jsstring) :
  endsOutside a -> Array_from a = List.map (fun u => [u]) a ->
  Rev2.parse a = Some (if isBlank a then [] else [trim a])
  /\ Rev2.parse (a ++ SEMICOLON ++ b)
     = option_map (app (if isBlank a then [] else [trim a])) (Rev2.parse b).
Proof.
  intros Ha Hbmp; split.
  - unfold Rev2.parse, parse. apply parseLoop_quiet, endsOutside_quiet, Ha.
  - unfold Rev2.parse at 1; unfold parse. cbn [parseLoop].
    fold Rev2.getStatements. rewrite getStatements_app_delimiter by assumption.
    cbn [fst snd]. rewrite isBlank_trim.
    destruct (isBlank b) eqn:Eb.
    + rewrite (parse_blank _ Eb); simpl. rewrite app_nil_r.
      destruct (isBlank a); reflexivity.
    + rewrite parseLoop_acc. rewrite parse_fuel.
      * destruct (isBlank a); reflexivity.
      * rewrite !length_app; simpl; lia.
Qed.

Lemma parse_app_delimiter_witness :
  Rev2.parse (js "SELECT ';' /* ; */ " ++ SEMICOLON ++ js " SELECT 2; SELECT 3")
  = Some [js "SELECT ';' /* ; */"; js "SELECT 2"; js "SELECT 3"].
Proof.
  apply (proj2 (@parse_app_delimiter (js "SELECT ';' /* ; */ ") (js " SELECT 2; SELECT 3")
                  ltac:(vm_compute; auto) eq_refl)).
Defined.

(** ** The splitter: how many statements *)

Lemma Array_from_no_high (s : jsstring) :
  forallb (fun u => negb (isHighSurrogate u)) s = true ->
  Array_from s = List.map (fun u => [u]) s.
Proof.
  induction s as [|u s IH]; [reflexivity|]; cbn [forallb map].
  intros H; apply andb_true_iff in H as [Hu Hs]; apply negb_true_iff in Hu.
  rewrite Array_from_not_high by assumption. rewrite IH by assumption; reflexivity.
Qed.

Lemma forallb_skipn (A : Type) (f : A -> bool) (n : nat) (l : list A) :
  forallb f l = true -> forallb f (skipn n l) = true.
Proof.
  intros H. rewrite <- (firstn_skipn n l), forallb_app in H.
  apply andb_true_iff in H; tauto.
Qed.

Lemma count_occ_cut (l : list N) (i : nat) (x : N) :
  nth_error l i = Some x ->
  count_occ N.eq_dec (skipn (S i) l) x < count_occ N.eq_dec l x.
Proof.
  intros H. rewrite (nth_error_cut _ _ H) at 2.
  rewrite count_occ_app. simpl.
  destruct (N.eq_dec x x); [lia|congruence].
Qed.

Lemma parseLoop_count (fuel : nat) : forall restOfQuery queries out,
  forallb (fun u => negb (isHighSurrogate u)) restOfQuery = true ->
  parseLoop2 fuel restOfQuery queries = Some out ->
  length out <= length queries + S (count_occ N.eq_dec restOfQuery 59%N).
Proof.
  induction fuel as [|fuel IH]; intros r acc out Hr; cbn [parseLoop]; [discriminate|].
  fold Rev2.getStatements.
  set (stmt := fst (Rev2.getStatements r SEMICOLON)).
  assert (Hacc : length (if negb (isBlank stmt) then acc ++ [stmt] else acc) <= length acc + 1).
  { destruct (isBlank stmt); simpl; rewrite ?length_app; simpl; lia. }
  pose proof (getStatements_cases r) as Hc.
  destruct (scan SEMICOLON (Array_from r)) as [sp|] eqn:E; rewrite Hc; cbn [snd].
  - destruct (isBlank (skipn sp r)).
    + intros H; injection H as <-; lia.
    + intros H; apply IH in H; [|apply forallb_skipn, Hr].
      apply scan_found in E as [Hsp Hnth].
      rewrite (Array_from_no_high _ Hr), nth_error_map in Hnth.
      destruct (nth_error r (sp - 1)) as [u|] eqn:Eu; [|discriminate].
      injection Hnth as ->.
      apply count_occ_cut in Eu.
      replace (S (sp - 1)) with sp in Eu by lia. lia.
  - intros H; injection H as <-; lia.
Qed.

(** X4: on a script without high surrogates [parse] returns at most one
    statement more than the script has semicolons. *)
Theorem parse_count (query : jsstring) (queries : list jsstring) :
  forallb (fun u => negb (isHighSurrogate u)) query = true ->
  Rev2.parse query = Some queries ->
  length queries <= S (count_occ N.eq_dec query 59%N).
Proof.
  intros Hq H. apply parseLoop_count in H; [exact H | exact Hq].
Qed.

Lemma parse_count_witness :
  length [js "a"; js "';'"; js "c"] <= S (count_occ N.eq_dec (js "a; ';' ; c") 59%N).
Proof.
  apply (@parse_count (js "a; ';' ; c") [js "a"; js "';'"; js "c"]); reflexivity.
Defined.

(** With surrogate pairs there can be more statements than that. *)
Example parse_count_pairs :
  Rev2.parse (emoji ++ emoji ++ js "ab;c") = Some [emoji ++ emoji; js "b"; js "c"].
Proof. reflexivity. Qed.

(** ** The splitter: scripts of delimiters and white space *)

Lemma separators_split (s : jsstring) :
  forallb separator s = true ->
  forallb isWhiteSpace s = true
  \/ exists ws rest, s = ws ++ SEMICOLON ++ rest /\ forallb isWhiteSpace ws = true.
Proof.
  induction s as [|u s IH]; [left; reflexivity|]; cbn [forallb].
  intros H; apply andb_true_iff in H as [Hu Hs].
  unfold separator in Hu; apply orb_true_iff in Hu as [Hu|Hu].
  - destruct (IH Hs) as [Hall|(ws & rest & -> & Hws)].
    + left; rewrite Hu, Hall; reflexivity.
    + right; exists (u :: ws), rest; split; [reflexivity|]. simpl; rewrite Hu, Hws; reflexivity.
  - apply N.eqb_eq in Hu as ->. right; exists [], s; split; reflexivity.
Qed.

Lemma blank_forallb (s : jsstring) : forallb isWhiteSpace s = true -> trim s = [].
Proof. intros H; unfold trim; rewrite trimStart_blank by assumption; reflexivity. Qed.

Lemma endsOutside_blank (ws : jsstring) :
  forallb isWhiteSpace ws = true -> endsOutside ws.
Proof.
  intros H. unfold endsOutside.
  pose proof (@scanLoop_blank_prefix ws [] H None 0 eq_refl) as X.
  rewrite app_nil_r in X. rewrite <- (app_nil_r ws), Array_from_blank_app by assumption.
  cbn [Array_from]. rewrite app_nil_r. unfold jsstring in *. rewrite X.
  cbn [forLoop]. split; reflexivity.
Qed.

Lemma getStatements_separators (buffer : jsstring) :
  forallb separator buffer = true ->
  isBlank (fst (Rev2.getStatements buffer SEMICOLON)) = true.
Proof.
  intros H. destruct (separators_split _ H) as [Hall|(ws & rest & -> & Hws)].
  - pose proof (getStatements_cases buffer) as Hc.
    rewrite scan_no_semicolon in Hc.
    + rewrite Hc; simpl. rewrite isBlank_trim, isBlank_iff; exact Hall.
    + intros Hin. rewrite forallb_forall in Hall. apply Hall in Hin; discriminate.
  - rewrite getStatements_app_delimiter.
    + simpl. rewrite isBlank_trim, isBlank_iff; exact Hws.
    + apply endsOutside_blank, Hws.
    + apply Array_from_no_high. rewrite forallb_forall in *. intros u Hu.
      apply negb_true_iff, isWhiteSpace_facts, Hws, Hu.
Qed.

Lemma parse_separators_aux (query : jsstring) :
  forallb separator query = true -> Rev2.parse query = Some [].
Proof.
  intros H.
  destruct (@parseLoop_enough_fuel (S (length query)) query []) as [out Hout]; [lia|].
  unfold Rev2.parse, parse. rewrite Hout. f_equal.
  destruct out as [|s out]; [reflexivity|exfalso].
  destruct (@parseLoop_elements (S (length query)) query [] (s :: out) s Hout)
    as [[]|(buffer & pre & Hq & Hs & Hb)]; [simpl; auto|].
  rewrite Hs, getStatements_separators in Hb; [discriminate|].
  rewrite Hq, forallb_app in H. apply andb_true_iff in H; tauto.
Qed.

(** X5: a script of semicolons and white space only gives no statement. *)
Theorem parse_only_separators (query : jsstring) :
  forallb (fun u => isWhiteSpace u || (u =? 59)%N) query = true ->
  Rev2.parse query = Some [].
Proof. apply parse_separators_aux. Qed.

Lemma parse_only_separators_witness : Rev2.parse (js " ;; ;" ++ NEWLINE ++ js ";") = Some [].
Proof. apply parse_only_separators. reflexivity. Defined.


(** ** The first revision: statements keep their delimiter *)

Lemma trimStart_keeps_last (s : jsstring) (u : N) :
  isWhiteSpace u = false -> exists t, trimStart (s ++ [u]) = t ++ [u].
Proof.
  intros Hu. induction s as [|v s IH]; cbn [app trimStart].
  - rewrite Hu. exists []; reflexivity.
  - destruct (isWhiteSpace v); [exact IH|]. exists (v :: s); reflexivity.
Qed.

Lemma trim_keeps_last (s : jsstring) (u : N) :
  isWhiteSpace u = false -> exists t, trim (s ++ [u]) = t ++ [u].
Proof.
  intros Hu. destruct (@trimStart_keeps_last s u Hu) as [t Ht].
  exists t. unfold trim, trimEnd. rewrite Ht, rev_app_distr.
  cbn [rev app trimStart]. rewrite Hu. cbn [rev]. rewrite rev_involutive.
  reflexivity.
Qed.

Lemma getStatements_Rev1 (buffer : jsstring) (sp : nat) :
  forallb (fun u => negb (isHighSurrogate u)) buffer = true ->
  scan SEMICOLON (Array_from buffer) = Some sp ->
  endsWithDelimiter (fst (Rev1.getStatements buffer SEMICOLON))
  /\ isBlank (fst (Rev1.getStatements buffer SEMICOLON)) = false
  /\ snd (Rev1.getStatements buffer SEMICOLON) = Some (skipn sp buffer).
Proof.
  intros Hb Hsp.
  unfold Rev1.getStatements, getStatements. rewrite Hsp.
  unfold Rev1.getQueryParts, substringFrom. rewrite substring_0, Nat.add_0_r. cbn [fst snd].
  apply scan_found in Hsp as [Hpos Hnth].
  rewrite (Array_from_no_high _ Hb), nth_error_map in Hnth.
  destruct (nth_error buffer (sp - 1)) as [u|] eqn:Eu; [|discriminate].
  injection Hnth as ->.
  assert (Hf : firstn sp buffer = firstn (sp - 1) buffer ++ [59%N]).
  { rewrite (nth_error_cut _ _ Eu) at 1.
    assert (Hl : length (firstn (sp - 1) buffer) = sp - 1).
    { apply firstn_length_le. assert (sp - 1 < length buffer) by (apply nth_error_Some; congruence). lia. }
    rewrite firstn_app, Hl. replace (sp - (sp - 1)) with 1 by lia.
    rewrite firstn_all2 by lia. reflexivity. }
  rewrite Hf. destruct (@trim_keeps_last (firstn (sp - 1) buffer) 59%N eq_refl) as [t Ht].
  rewrite Ht. repeat split.
  - exists t; reflexivity.
  - rewrite isBlank_iff, forallb_app; simpl. apply andb_false_r.
Qed.

Lemma parseLoop_Rev1 (fuel : nat) : forall restOfQuery queries out,
  forallb (fun u => negb (isHighSurrogate u)) restOfQuery = true ->
  parseLoop Rev1.getQueryParts fuel restOfQuery queries = Some out ->
  exists init last, out = queries ++ init ++ last
                    /\ Forall endsWithDelimiter init /\ length last <= 1.
Proof.
  induction fuel as [|fuel IH]; intros r acc out Hr; cbn [parseLoop]; [discriminate|].
  fold Rev1.getStatements.
  destruct (scan SEMICOLON (Array_from r)) as [sp|] eqn:E.
  - destruct (@getStatements_Rev1 r sp Hr E) as (He & Hb & Hs).
    rewrite Hb, Hs. cbn [negb].
    destruct (isBlank (skipn sp r)).
    + intros H; injection H as <-.
      exists [fst (Rev1.getStatements r SEMICOLON)], []. rewrite app_nil_r.
      repeat split; auto.
    + intros H. apply IH in H as (init & last & -> & Hi & Hl); [|apply forallb_skipn, Hr].
      exists (fst (Rev1.getStatements r SEMICOLON) :: init), last.
      rewrite <- !app_assoc. repeat split; auto.
  - unfold Rev1.getStatements, getStatements. rewrite E. cbn [fst snd].
    intros H; injection H as <-.
    exists [], (if negb (isBlank (trim r)) then [trim r] else []).
    destruct (isBlank (trim r)); simpl; rewrite ?app_nil_r; repeat split; auto.
Qed.

(** X6: in the first revision, on a script without high surrogates, every
    statement but possibly the last one ends with the semicolon that
    delimited it. *)
Theorem rev1_statements_keep_delimiter (query : jsstring) (queries : list jsstring) :
  forallb (fun u => negb (isHighSurrogate u)) query = true ->
  Rev1.parse query = Some queries ->
  exists init last, queries = init ++ last
                    /\ Forall (fun statement => exists text, statement = text ++ SEMICOLON) init
                    /\ length last <= 1.
Proof.
  intros Hq H. apply parseLoop_Rev1 in H; [|exact Hq]. exact H.
Qed.

Lemma rev1_statements_keep_delimiter_witness :
  exists init last, [js "a;"; js ";"; js "b ;"; js "c"] = init ++ last
                    /\ Forall (fun statement => exists text, statement = text ++ SEMICOLON) init
                    /\ length last <= 1.
Proof.
  apply (@rev1_statements_keep_delimiter (js " a;; b ; c")); reflexivity.
Defined.

(** ** The classifier: white space *)

(** The loop of the classifier reads neither [previousChar] nor [index]. *)
Lemma kwLoop_irrelevant (l : list jsstring) : forall skip p p' i i' st,
  kwLoop skip p i st l = kwLoop skip p' i' st l.
Proof.
  induction l as [|c tl IH]; intros skip p p' i i' st; cbn [forLoop]; [reflexivity|].
  destruct skip as [|k]; [|apply IH].
  change (keywordBody p c tl i st) with (keywordBody p' c tl i' st).
  destruct (keywordBody p' c tl i' st); [apply IH|reflexivity].
Qed.

Lemma startsComment_blank (w : N) (nextChar : option jsstring) :
  isWhiteSpace w = true -> startsComment [w] nextChar = false.
Proof.
  intros Hw; apply isWhiteSpace_facts in Hw as (_ & _ & _ & _ & H1 & H2 & H3 & _).
  unfold startsComment.
  rewrite (@str_eqb_neq [w] HASH), (@str_eqb_neq [w] DASH), (@str_eqb_neq [w] SLASH);
    [reflexivity | | |]; unfold HASH, DASH, SLASH; congruence.
Qed.

Lemma kwLoop_blank_prefix (ws : jsstring) (l : list jsstring) :
  forallb isWhiteSpace ws = true ->
  forall p i, kwLoop 0 p i kwInit (List.map (fun u => [u]) ws ++ l)
              = kwLoop 0 None 0 kwInit l.
Proof.
  induction ws as [|w ws IH]; cbn [forallb map app]; intros H p i.
  - apply kwLoop_irrelevant.
  - apply andb_true_iff in H as [Hw Hws]. cbn [forLoop].
    unfold keywordBody. rewrite startsComment_blank by assumption.
    rewrite isBlank_iff; simpl. rewrite Hw; simpl. apply IH, Hws.
Qed.

(** X7: white space ahead of a statement changes neither its first keyword
    nor its kind. *)
Theorem classify_leading_blank (upperCaseOf : jsstring -> jsstring) (ws sql : jsstring) :
  forallb isWhiteSpace ws = true ->
  getFirstKeywordOutsideComments (ws ++ sql) = getFirstKeywordOutsideComments sql
  /\ getStatementType upperCaseOf (ws ++ sql) = getStatementType upperCaseOf sql.
Proof.
  intros H.
  assert (Hk : getFirstKeywordOutsideComments (ws ++ sql)
               = getFirstKeywordOutsideComments sql).
  { unfold getFirstKeywordOutsideComments.
    rewrite Array_from_blank_app, kwLoop_blank_prefix by assumption; reflexivity. }
  split; [exact Hk|].
  unfold getStatementType; rewrite Hk.
  destruct sql as [|u sql']; [|destruct ws; reflexivity].
  destruct (ws ++ []); reflexivity.
Qed.

Lemma classify_leading_blank_witness :
  getStatementType upperCaseLatin ((NEWLINE ++ js "  ") ++ js "update t set a = 1")
  = getStatementType upperCaseLatin (js "update t set a = 1").
Proof.
  apply (@classify_leading_blank upperCaseLatin (NEWLINE ++ js "  ")
           (js "update t set a = 1")).
  reflexivity.
Defined.

(** ** The classifier: the keyword is one word *)

Lemma Array_from_elements (s : jsstring) :
  Forall (fun c => (exists u, c = [u] /\ In u s)
                   \/ (exists h l, c = [h; l] /\ isHighSurrogate h = true
                                   /\ isLowSurrogate l = true))
         (Array_from s).
Proof.
  induction s as [| u | u v s Hp IH | u v s Hp IH] using Array_from_ind.
  - constructor.
  - constructor; [|constructor]. left; exists u; simpl; auto.
  - rewrite Array_from_pair by assumption. constructor.
    + right; exists u, v. apply andb_true_iff in Hp; tauto.
    + eapply Forall_impl; [|exact IH]. simpl.
      intros c [(w & -> & Hw)|H]; [left; exists w; auto|right; exact H].
  - rewrite Array_from_unit by assumption. constructor.
    + left; exists u; simpl; auto.
    + eapply Forall_impl; [|exact IH].
      intros c [(w & -> & Hw)|H]; [left; exists w; simpl in *; auto|right; exact H].
Qed.

Lemma surrogate_not_blank (u : N) :
  isHighSurrogate u = true \/ isLowSurrogate u = true -> isWhiteSpace u = false.
Proof.
  unfold isHighSurrogate, isLowSurrogate, isWhiteSpace.
  rewrite !andb_true_iff, !N.leb_le. intros H.
  repeat rewrite ?orb_false_iff, ?andb_false_iff.
  rewrite ?N.eqb_neq, ?N.leb_gt. repeat split; lia.
Qed.

Lemma kwLoop_word (l : list jsstring) : forall skip p i st,
  Forall (fun c => isBlank c = false -> wordChars c) l ->
  wordChars (keyword st) ->
  wordChars (match kwLoop skip p i st l with inl st' => keyword st' | inr kw => kw end).
Proof.
  induction l as [|c tl IH]; intros skip p i st Hl Hst; cbn [forLoop]; [exact Hst|].
  inversion Hl as [|? ? Hc Htl]; subst.
  destruct skip as [|k]; [|apply IH; auto].
  unfold keywordBody.
  destruct (startsComment c (hd_error tl)); [apply IH; [exact Htl | exact Hst]|].
  destruct (kwInComment st && endsComment (kwCommentChar st) c (hd_error tl));
    [apply IH; [exact Htl | exact Hst]|].
  destruct (negb (kwInComment st)); [|apply IH; [exact Htl | exact Hst]].
  destruct (isBlank c) eqn:Eb.
  - destruct (keyword st) eqn:Ek; [|exact Hst].
    apply IH; [exact Htl | rewrite Ek; constructor].
  - apply IH; [exact Htl|]. simpl. apply Forall_app; split; [exact Hst | apply Hc, eq_refl].
Qed.

(** X8: the first keyword outside comments holds no white space. *)
Theorem keyword_is_one_word (sql : jsstring) :
  Forall (fun u => isWhiteSpace u = false) (getFirstKeywordOutsideComments sql).
Proof.
  unfold getFirstKeywordOutsideComments.
  apply (@kwLoop_word (Array_from sql) 0 None 0 kwInit); [|constructor].
  eapply Forall_impl; [|apply Array_from_elements].
  intros c [(u & -> & _)|(h & l & -> & Hh & Hl)] Hb.
  - rewrite isBlank_iff in Hb; simpl in Hb.
    constructor; [|constructor]. destruct (isWhiteSpace u); [discriminate|reflexivity].
  - repeat constructor; apply surrogate_not_blank; auto.
Qed.

(** ** The classifier: letter case *)

Lemma isLatinLetter_facts (u : N) :
  isLatinLetter u = true ->
  isHighSurrogate u = false /\ isLowSurrogate u = false /\ isWhiteSpace u = false.
Proof.
  unfold isLatinLetter, isHighSurrogate, isLowSurrogate, isWhiteSpace.
  rewrite orb_true_iff, !andb_true_iff, !N.leb_le. intros H.
  repeat rewrite ?orb_false_iff, ?andb_false_iff.
  rewrite ?N.eqb_neq, ?N.leb_gt. repeat split; lia.
Qed.

Lemma swapCaseLatin_upper (u : N) :
  upperCaseLatin [swapCaseLatin u] = upperCaseLatin [u].
Proof.
  unfold upperCaseLatin, swapCaseLatin; simpl.
  destruct (N.leb_spec 97 u), (N.leb_spec u 122), (N.leb_spec 65 u), (N.leb_spec u 90);
    simpl;
    repeat match goal with
           | |- context [(?a <=? ?b)%N] => destruct (N.leb_spec a b); simpl
           end; try reflexivity; try (f_equal; lia); lia.
Qed.

Lemma swapCaseLatin_letters (u : N) :
  swapCaseLatin u <> u -> isLatinLetter u = true /\ isLatinLetter (swapCaseLatin u) = true.
Proof.
  unfold swapCaseLatin, isLatinLetter.
  destruct (N.leb_spec 97 u), (N.leb_spec u 122), (N.leb_spec 65 u), (N.leb_spec u 90);
    simpl; try congruence; intros _; split; try reflexivity;
    rewrite orb_true_iff, !andb_true_iff, !N.leb_le; lia.
Qed.

Section LetterCase.
Variable upperCaseOf : jsstring -> jsstring.
Variable f : N -> N.
Hypothesis same_upper : forall u, upperCaseOf [f u] = upperCaseOf [u].
Hypothesis only_letters :
  forall u, f u <> u -> isLatinLetter u = true /\ isLatinLetter (f u) = true.

Lemma recase_preserves (P : N -> bool) (u : N) :
  (forall v, isLatinLetter v = true -> P v = false) -> P (f u) = P u.
Proof.
  intros HP. destruct (N.eq_dec (f u) u) as [->|Hne]; [reflexivity|].
  destruct (only_letters Hne) as [H1 H2]. rewrite (HP _ H1), (HP _ H2); reflexivity.
Qed.

Lemma recase_fixed (k : N) : isLatinLetter k = false -> f k = k.
Proof.
  intros Hk. destruct (N.eq_dec (f k) k) as [|Hne]; [assumption|].
  destruct (only_letters Hne); congruence.
Qed.

Lemma recase_eqb (k u : N) : isLatinLetter k = false -> (f u =? k)%N = (u =? k)%N.
Proof.
  intros Hk. apply (@recase_preserves (fun v => (v =? k)%N)).
  intros v Hv. apply N.eqb_neq; congruence.
Qed.

Lemma recase_str_eqb (k : N) (c : jsstring) :
  isLatinLetter k = false -> str_eqb (List.map f c) [k] = str_eqb c [k].
Proof.
  intros Hk. destruct c as [|u [|v c]]; cbn [map str_eqb];
    rewrite ?recase_eqb by assumption; reflexivity.
Qed.

Lemma recase_opt_eqb (k : N) (next : option jsstring) :
  isLatinLetter k = false ->
  opt_eqb [k] (option_map (List.map f) next) = opt_eqb [k] next.
Proof.
  intros Hk. destruct next as [c|]; [|reflexivity]. cbn [option_map opt_eqb].
  rewrite !(str_eqb_sym [k]). apply recase_str_eqb, Hk.
Qed.

Lemma hd_error_map (A B : Type) (g : A -> B) (l : list A) :
  hd_error (List.map g l) = option_map g (hd_error l).
Proof. destruct l; reflexivity. Qed.

Lemma recase_startsComment (c : jsstring) (tl : list jsstring) :
  startsComment (List.map f c) (hd_error (List.map (List.map f) tl))
  = startsComment c (hd_error tl).
Proof.
  unfold startsComment, HASH, SPACE, DASH, SLASH, STAR.
  rewrite hd_error_map, !recase_str_eqb, !recase_opt_eqb by reflexivity. reflexivity.
Qed.

Lemma recase_endsComment (cc : option jsstring) (c : jsstring) (tl : list jsstring) :
  endsComment cc (List.map f c) (hd_error (List.map (List.map f) tl))
  = endsComment cc c (hd_error tl).
Proof.
  unfold endsComment, NEWLINE, STAR, SLASH.
  rewrite hd_error_map, !recase_str_eqb, !recase_opt_eqb by reflexivity. reflexivity.
Qed.

Lemma recase_isBlank (c : jsstring) : isBlank (List.map f c) = isBlank c.
Proof.
  rewrite !isBlank_iff. induction c as [|u c IH]; [reflexivity|]; cbn [map forallb].
  rewrite IH. f_equal.
  apply (@recase_preserves isWhiteSpace). intros v Hv; apply isLatinLetter_facts, Hv.
Qed.

Lemma startsComment_marker (c : jsstring) (next : option jsstring) :
  startsComment c next = true -> c = HASH \/ c = DASH \/ c = SLASH.
Proof.
  unfold startsComment. rewrite !orb_true_iff, !andb_true_iff.
  intros [[[H _]|[H _]]|[H _]];
    [destruct (str_eqb_spec c HASH) | destruct (str_eqb_spec c DASH)
     | destruct (str_eqb_spec c SLASH)]; auto; discriminate.
Qed.

Lemma recase_marker (c : jsstring) (next : option jsstring) :
  startsComment c next = true -> List.map f c = c.
Proof.
  intros H; apply startsComment_marker in H as [ -> | [ -> | -> ] ];
    cbn [map HASH DASH SLASH]; rewrite recase_fixed; reflexivity.
Qed.

Lemma recase_Array_from (s : jsstring) :
  Array_from (List.map f s) = List.map (List.map f) (Array_from s).
Proof.
  assert (Hpair : forall u v, isHighSurrogate (f u) && isLowSurrogate (f v)
                              = isHighSurrogate u && isLowSurrogate v).
  { intros u v. f_equal.
    - apply (@recase_preserves isHighSurrogate); intros w Hw; apply isLatinLetter_facts, Hw.
    - apply (@recase_preserves isLowSurrogate); intros w Hw; apply isLatinLetter_facts, Hw. }
  induction s as [| u | u v s Hp IH | u v s Hp IH] using Array_from_ind.
  - reflexivity.
  - reflexivity.
  - cbn [map]. rewrite !Array_from_pair by (rewrite ?Hpair; assumption).
    rewrite IH; reflexivity.
  - cbn [map]. rewrite !Array_from_unit by (rewrite ?Hpair; assumption).
    cbn [map] in IH. rewrite IH; reflexivity.
Qed.

Lemma recase_keywordBody p (c : jsstring) (tl : list jsstring) i (st : KeywordState) :
  keywordBody p (List.map f c) (List.map (List.map f) tl) i (recaseKw f st)
  = match keywordBody p c tl i st with
    | Continue st' k => Continue (recaseKw f st') k
    | Leave kw => Leave (List.map f kw)
    end.
Proof.
  unfold keywordBody.
  rewrite recase_startsComment, recase_endsComment, recase_isBlank.
  destruct (startsComment c (hd_error tl)) eqn:Es.
  - unfold recaseKw; simpl. rewrite (recase_marker _ _ Es); reflexivity.
  - cbn [recaseKw kwInComment kwCommentChar keyword].
    destruct (kwInComment st && endsComment (kwCommentChar st) c (hd_error tl));
      [reflexivity|].
    destruct (negb (kwInComment st)); [|reflexivity].
    destruct (isBlank c).
    + destruct (keyword st); reflexivity.
    + unfold recaseKw; simpl. rewrite map_app; reflexivity.
Qed.

Lemma recase_kwLoop (l : list jsstring) : forall skip p i st,
  kwLoop skip p i (recaseKw f st) (List.map (List.map f) l)
  = match kwLoop skip p i st l with
    | inl st' => inl (recaseKw f st')
    | inr kw => inr (List.map f kw)
    end.
Proof.
  induction l as [|c tl IH]; intros skip p i st; cbn [forLoop map]; [reflexivity|].
  destruct skip as [|k].
  - rewrite recase_keywordBody.
    destruct (keywordBody p c tl i st) as [st' k|kw]; [|reflexivity].
    rewrite (@kwLoop_irrelevant _ k (Some (List.map f c)) (Some c) (S i) (S i)).
    apply IH.
  - rewrite (@kwLoop_irrelevant _ k (Some (List.map f c)) (Some c) (S i) (S i)).
    apply IH.
Qed.

Lemma recase_keyword (sql : jsstring) :
  getFirstKeywordOutsideComments (List.map f sql)
  = List.map f (getFirstKeywordOutsideComments sql).
Proof.
  unfold getFirstKeywordOutsideComments.
  rewrite recase_Array_from.
  pose proof (recase_kwLoop (Array_from sql) 0 None 0 kwInit) as X.
  change (recaseKw f kwInit) with kwInit in X. rewrite X.
  destruct (kwLoop 0 None 0 kwInit (Array_from sql)); reflexivity.
Qed.

Lemma recase_toUpperCase (s : jsstring) :
  toUpperCase upperCaseOf (List.map f s) = toUpperCase upperCaseOf s.
Proof.
  unfold toUpperCase. rewrite recase_Array_from, map_map. f_equal.
  apply map_ext_in. intros c Hc.
  pose proof (Array_from_elements s) as He. rewrite Forall_forall in He.
  destruct (He c Hc) as [(u & -> & _)|(h & l & -> & Hh & Hl)].
  - apply same_upper.
  - cbn [map]. rewrite !recase_fixed; [reflexivity | |].
    + destruct (isLatinLetter l) eqn:E; [|reflexivity].
      apply isLatinLetter_facts in E; destruct E as (_ & E & _); congruence.
    + destruct (isLatinLetter h) eqn:E; [|reflexivity].
      apply isLatinLetter_facts in E; destruct E as (E & _); congruence.
Qed.

Lemma recase_getStatementType (sql : jsstring) :
  getStatementType upperCaseOf (List.map f sql) = getStatementType upperCaseOf sql.
Proof.
  unfold getStatementType.
  rewrite recase_keyword, recase_toUpperCase. destruct sql; reflexivity.
Qed.
End LetterCase.

(** X9: the kind of a statement does not depend on the case of its Basic
    Latin letters: changing letters by a map [f] that only turns letters
    into letters with the same upper case leaves the kind as it is. *)
Theorem classify_case_insensitive (upperCaseOf : jsstring -> jsstring) (f : N -> N)
        (sql : jsstring) :
  (forall u, upperCaseOf [f u] = upperCaseOf [u]) ->
  (forall u, f u <> u -> isLatinLetter u = true /\ isLatinLetter (f u) = true) ->
  getStatementType upperCaseOf (List.map f sql) = getStatementType upperCaseOf sql.
Proof. intros H1 H2; apply recase_getStatementType; assumption. Qed.

Lemma classify_case_insensitive_witness :
  getStatementType upperCaseLatin (List.map swapCaseLatin (js "Delete From t"))
  = getStatementType upperCaseLatin (js "Delete From t").
Proof.
  apply classify_case_insensitive;
    [exact swapCaseLatin_upper | exact swapCaseLatin_letters].
Defined.

(** ** The classifier: comments ahead of the keyword *)

(** The elements of a text that holds none of the code units [ks] are none
    of the one-character strings made of them. *)
Lemma Array_from_avoid (ks : list N) (c : jsstring) :
  (forall u, In u c -> ~ In u ks) ->
  Forall (fun e => forall k, In k ks -> e <> [k]) (Array_from c).
Proof.
  intros H. eapply Forall_impl; [|apply Array_from_elements].
  intros e [(u & -> & Hu)|(h & l & -> & _)] k Hk E.
  - injection E as ->. exact (H _ Hu Hk).
  - discriminate.
Qed.

Lemma kwLoop_block_comment (lc rest : list jsstring) (kw : jsstring) :
  Forall (fun e => forall k, In k [35; 45; 47; 42]%N -> e <> [k]) lc ->
  forall p i,
  kwLoop 0 p i (mkKw true (Some SLASH) kw) (lc ++ STAR :: SLASH :: rest)
  = kwLoop 0 None 0 (mkKw false None kw) rest.
Proof.
  induction lc as [|e lc IH]; intros H p i; cbn [app forLoop].
  - unfold keywordBody; simpl. apply kwLoop_irrelevant.
  - inversion H as [|? ? He Hlc]; subst.
    unfold keywordBody, startsComment, endsComment.
    rewrite (@str_eqb_neq e HASH), (@str_eqb_neq e DASH), (@str_eqb_neq e SLASH),
      (@str_eqb_neq e STAR) by (apply He; simpl; auto).
    simpl. rewrite ?andb_false_r; simpl. apply IH, Hlc.
Qed.

(** X10: a block comment ahead of the statement that holds none of the
    characters [#], [-], [/] and [*] is skipped: keyword and kind are those
    of the text after it. *)
Theorem leading_block_comment_skipped (upperCaseOf : jsstring -> jsstring)
        (comment sql : jsstring) :
  (forall u, In u comment -> ~ In u [35; 45; 47; 42]%N) ->
  getFirstKeywordOutsideComments (js "/*" ++ comment ++ js "*/" ++ sql)
  = getFirstKeywordOutsideComments sql
  /\ getStatementType upperCaseOf (js "/*" ++ comment ++ js "*/" ++ sql)
     = getStatementType upperCaseOf sql.
Proof.
  intros H.
  assert (Hk : getFirstKeywordOutsideComments (js "/*" ++ comment ++ js "*/" ++ sql)
               = getFirstKeywordOutsideComments sql).
  { unfold getFirstKeywordOutsideComments.
    change (js "/*" ++ comment ++ js "*/" ++ sql)
      with (47%N :: 42%N :: (comment ++ 42%N :: 47%N :: sql)).
    rewrite !Array_from_not_high by reflexivity.
    rewrite Array_from_app_boundary by reflexivity.
    rewrite !Array_from_not_high by reflexivity.
    pose proof (Array_from_avoid [35; 45; 47; 42]%N comment H) as Hc.
    change [47%N] with SLASH; change [42%N] with STAR.
    cbn [forLoop]. unfold keywordBody at 1.
    change (startsComment SLASH (hd_error (STAR :: Array_from comment
                                             ++ STAR :: SLASH :: Array_from sql)))
      with true. cbv iota.
    assert (Hn : opt_eqb SLASH (hd_error (Array_from comment
                                            ++ STAR :: SLASH :: Array_from sql)) = false).
    { destruct (Array_from comment) as [|e lc]; [reflexivity|].
      inversion Hc as [|? ? He _]; subst. cbn [app hd_error opt_eqb].
      apply str_eqb_neq. intros E.
      apply (He 47%N); [simpl; auto | symmetry; exact E]. }
    unfold keywordBody at 1, startsComment, endsComment.
    unfold jsstring in *; rewrite Hn. simpl.
    rewrite (@kwLoop_block_comment (Array_from comment) (Array_from sql) [] Hc).
    reflexivity. }
  split; [exact Hk|].
  unfold getStatementType. rewrite Hk.
  destruct sql as [|u sql']; [|reflexivity]. reflexivity.
Qed.

Lemma leading_block_comment_skipped_witness :
  getStatementType upperCaseLatin (js "/*" ++ js " the rows; all " ++ js "*/" ++ js " select 1")
  = getStatementType upperCaseLatin (js " select 1").
Proof.
  apply leading_block_comment_skipped.
  intros u Hu Hk; vm_compute in Hu, Hk.
  repeat destruct Hk as [Hk|Hk]; try contradiction; subst u;
    repeat destruct Hu as [Hu|Hu]; try contradiction; discriminate.
Defined.

(** One step inside a [#] or [--] comment, at an element that is neither a
    line break nor a slash: the scanner stays inside such a comment. *)
Lemma keywordBody_line_comment p (e : jsstring) (tl : list jsstring) i
      (cc kw : jsstring) :
  (forall k, In k [10; 47]%N -> e <> [k]) -> cc = HASH \/ cc = DASH ->
  exists cc', (cc' = HASH \/ cc' = DASH)
              /\ keywordBody p e tl i (mkKw true (Some cc) kw)
                 = Continue (mkKw true (Some cc') kw) 0.
Proof.
  intros He Hcc. unfold keywordBody.
  destruct (startsComment e (hd_error tl)) eqn:Es.
  - exists e; split; [|reflexivity].
    apply startsComment_marker in Es as [ -> | [ -> | -> ] ]; auto.
    exfalso; apply (He 47%N); simpl; auto.
  - exists cc; split; [exact Hcc|].
    unfold endsComment; cbn [kwInComment kwCommentChar keyword].
    rewrite (@str_eqb_neq e NEWLINE) by (apply He; simpl; auto).
    assert (Hs : opt_eqb SLASH (Some cc) = false) by (destruct Hcc; subst; reflexivity).
    rewrite Hs, andb_false_r. reflexivity.
Qed.

Lemma kwLoop_line_comment (lc rest : list jsstring) (kw : jsstring) :
  Forall (fun e => forall k, In k [10; 47]%N -> e <> [k]) lc ->
  forall cc p i, cc = HASH \/ cc = DASH ->
  kwLoop 0 p i (mkKw true (Some cc) kw) (lc ++ NEWLINE :: rest)
  = kwLoop 0 None 0 (mkKw false None kw) rest.
Proof.
  induction lc as [|e lc IH]; intros H cc p i Hcc; cbn [app forLoop].
  - unfold keywordBody. destruct Hcc; subst; simpl; apply kwLoop_irrelevant.
  - inversion H as [|? ? He Hlc]; subst.
    destruct (@keywordBody_line_comment p e (lc ++ NEWLINE :: rest) i cc kw He Hcc)
      as (cc' & Hcc' & ->).
    apply IH; assumption.
Qed.

Lemma kwLoop_line_comment_open (lc : list jsstring) (kw : jsstring) :
  Forall (fun e => forall k, In k [10; 47]%N -> e <> [k]) lc ->
  forall cc p i, cc = HASH \/ cc = DASH ->
  exists st, kwLoop 0 p i (mkKw true (Some cc) kw) lc = inl st /\ keyword st = kw.
Proof.
  induction lc as [|e lc IH]; intros H cc p i Hcc; cbn [forLoop].
  - eexists; split; reflexivity.
  - inversion H as [|? ? He Hlc]; subst.
    destruct (@keywordBody_line_comment p e lc i cc kw He Hcc) as (cc' & Hcc' & ->).
    apply IH; assumption.
Qed.

Lemma Array_from_line (c : jsstring) :
  (forall u, In u c -> ~ In u [10; 47]%N) ->
  Forall (fun e => forall k, In k [10; 47]%N -> e <> [k]) (DASH :: Array_from c).
Proof.
  intros H; constructor; [|apply Array_from_avoid, H].
  intros k [<-|[<-|[]]]; discriminate.
Qed.

(** X11: a [--] comment ahead of the statement that holds no slash is
    skipped up to its line break: keyword and kind are those of the text
    on the next lines. *)
Theorem leading_line_comment_skipped (upperCaseOf : jsstring -> jsstring)
        (comment sql : jsstring) :
  (forall u, In u comment -> ~ In u [10; 47]%N) ->
  getFirstKeywordOutsideComments (js "--" ++ comment ++ NEWLINE ++ sql)
  = getFirstKeywordOutsideComments sql
  /\ getStatementType upperCaseOf (js "--" ++ comment ++ NEWLINE ++ sql)
     = getStatementType upperCaseOf sql.
Proof.
  intros H.
  assert (Hk : getFirstKeywordOutsideComments (js "--" ++ comment ++ NEWLINE ++ sql)
               = getFirstKeywordOutsideComments sql).
  { unfold getFirstKeywordOutsideComments.
    change (js "--" ++ comment ++ NEWLINE ++ sql)
      with (45%N :: 45%N :: (comment ++ 10%N :: sql)).
    rewrite !Array_from_not_high by reflexivity.
    rewrite Array_from_app_boundary by reflexivity.
    rewrite !Array_from_not_high by reflexivity.
    change [45%N] with DASH; change [10%N] with NEWLINE.
    pose proof (@kwLoop_line_comment (DASH :: Array_from comment) (Array_from sql) []
                  (@Array_from_line comment H) DASH (Some DASH) 1 (or_intror eq_refl)) as X.
    change (kwLoop 0 None 0 kwInit
              (DASH :: DASH :: Array_from comment ++ NEWLINE :: Array_from sql))
      with (kwLoop 0 (Some DASH) 1 (mkKw true (Some DASH) [])
              ((DASH :: Array_from comment) ++ NEWLINE :: Array_from sql)).
    unfold jsstring in *. rewrite X. reflexivity. }
  split; [exact Hk|].
  unfold getStatementType. rewrite Hk.
  destruct sql as [|u sql']; reflexivity.
Qed.

Lemma leading_line_comment_skipped_witness :
  getStatementType upperCaseLatin (js "--" ++ js " it's here; -- *" ++ NEWLINE ++ js "drop table t")
  = getStatementType upperCaseLatin (js "drop table t").
Proof.
  apply leading_line_comment_skipped.
  intros u Hu Hk; vm_compute in Hu, Hk.
  repeat destruct Hk as [Hk|Hk]; try contradiction; subst u;
    repeat destruct Hu as [Hu|Hu]; try contradiction; discriminate.
Defined.

(** X12: a text that is one [--] comment, without line break and without
    slash, has no keyword and is UNSPECIFIED. *)
Theorem line_comment_alone_unspecified (upperCaseOf : jsstring -> jsstring)
        (comment : jsstring) :
  (forall u, In u comment -> ~ In u [10; 47]%N) ->
  getFirstKeywordOutsideComments (js "--" ++ comment) = []
  /\ getStatementType upperCaseOf (js "--" ++ comment) = UNSPECIFIED.
Proof.
  intros H.
  assert (Hk : getFirstKeywordOutsideComments (js "--" ++ comment) = []).
  { unfold getFirstKeywordOutsideComments.
    change (js "--" ++ comment) with (45%N :: 45%N :: comment).
    rewrite !Array_from_not_high by reflexivity.
    change [45%N] with DASH.
    destruct (@kwLoop_line_comment_open (DASH :: Array_from comment) []
                (@Array_from_line comment H) DASH (Some DASH) 1 (or_intror eq_refl))
      as (st & X & Hst).
    change (kwLoop 0 None 0 kwInit (DASH :: DASH :: Array_from comment))
      with (kwLoop 0 (Some DASH) 1 (mkKw true (Some DASH) [])
              (DASH :: Array_from comment)).
    unfold jsstring in *. rewrite X. exact Hst. }
  split; [exact Hk|].
  unfold getStatementType. rewrite Hk. reflexivity.
Qed.

Lemma line_comment_alone_unspecified_witness :
  getStatementType upperCaseLatin (js "--" ++ js " select 1; done") = UNSPECIFIED.
Proof.
  apply line_comment_alone_unspecified.
  intros u Hu Hk; vm_compute in Hu, Hk.
  repeat destruct Hk as [Hk|Hk]; try contradiction; subst u;
    repeat destruct Hu as [Hu|Hu]; try contradiction; discriminate.
Defined.

(** ** [clearTextUntilComment] *)

Lemma Array_from_concat_skipn (s : jsstring) : forall n,
  Array_from (concat (skipn n (Array_from s))) = skipn n (Array_from s).
Proof.
  induction s as [| u | u v s Hp IH | u v s Hp IH] using Array_from_ind; intros n.
  - destruct n; reflexivity.
  - destruct n as [|[|n]]; reflexivity.
  - destruct n as [|n]; [cbn [skipn]; rewrite concat_Array_from; reflexivity|].
    rewrite Array_from_pair by assumption. cbn [skipn]. apply IH.
  - destruct n as [|n]; [cbn [skipn]; rewrite concat_Array_from; reflexivity|].
    rewrite Array_from_unit by assumption. cbn [skipn]. apply IH.
Qed.

Lemma Array_from_head (v : N) (s : jsstring) :
  exists e l, Array_from (v :: s) = (v :: e) :: l.
Proof.
  destruct s as [|w s]; [exists [], []; reflexivity|].
  cbn [Array_from]. destruct (isHighSurrogate v && isLowSurrogate w); eauto.
Qed.

Lemma Array_from_concat_firstn (s : jsstring) : forall n,
  Array_from (concat (firstn n (Array_from s))) = firstn n (Array_from s).
Proof.
  induction s as [| u | u v s Hp IH | u v s Hp IH] using Array_from_ind; intros n.
  - destruct n; reflexivity.
  - destruct n as [|[|n]]; reflexivity.
  - destruct n as [|n]; [reflexivity|].
    rewrite Array_from_pair by assumption. cbn [firstn concat app].
    rewrite Array_from_pair by assumption. rewrite IH; reflexivity.
  - destruct n as [|n]; [reflexivity|].
    rewrite Array_from_unit by assumption. cbn [firstn concat app].
    destruct n as [|n]; [reflexivity|].
    specialize (IH (S n)).
    destruct (Array_from_head v s) as (e & l & E). rewrite E in *.
    cbn [firstn concat app] in *.
    rewrite Array_from_unit by assumption. rewrite IH; reflexivity.
Qed.

Lemma Array_from_nil (s : jsstring) : Array_from s = [] -> s = [].
Proof. intros H. rewrite <- (concat_Array_from s), H; reflexivity. Qed.

Lemma kept_rest (l : list jsstring) :
  skipn (kept l) l = []
  \/ exists c tl, skipn (kept l) l = c :: tl /\ startsComment c (hd_error tl) = true.
Proof.
  induction l as [|c tl IH]; [left; reflexivity|]; cbn [kept].
  destruct (startsComment c (hd_error tl)) eqn:E;
    [right; exists c, tl; split; [reflexivity | exact E] | exact IH].
Qed.

Lemma startsComment_last (c : jsstring) : startsComment c None = false.
Proof. unfold startsComment; simpl; rewrite !andb_false_r; reflexivity. Qed.

Lemma kept_prefix (l : list jsstring) : kept (firstn (kept l) l) = kept l.
Proof.
  induction l as [|c tl IH]; [reflexivity|]; cbn [kept].
  destruct (startsComment c (hd_error tl)) eqn:E; [reflexivity|].
  cbn [firstn kept].
  assert (Hh : startsComment c (hd_error (firstn (kept tl) tl)) = false).
  { destruct (kept tl) as [|k]; [apply startsComment_last|].
    destruct tl; [apply startsComment_last | exact E]. }
  rewrite Hh, IH; reflexivity.
Qed.

Lemma clearLoop_kept (l : list jsstring) : forall p i clearedText,
  collected (forLoop clearBody 0 p i clearedText l)
  = match kept l with
    | 0 => clearedText
    | S _ => Some (match clearedText with None => [] | Some text => text end
                   ++ concat (firstn (kept l) l))
    end.
Proof.
  induction l as [|c tl IH]; intros p i acc; cbn [forLoop kept]; [reflexivity|].
  unfold clearBody.
  destruct (startsComment c (hd_error tl)); [reflexivity|].
  rewrite IH. cbn [firstn concat].
  destruct (kept tl); cbn [firstn concat]; rewrite ?app_nil_r, <- ?app_assoc; reflexivity.
Qed.

Lemma clearTextUntilComment_kept (text : jsstring) :
  clearTextUntilComment text
  = match kept (Array_from text) with
    | 0 => None
    | S _ => Some (concat (firstn (kept (Array_from text)) (Array_from text)))
    end.
Proof.
  unfold clearTextUntilComment.
  change (match forLoop clearBody 0 None 0 None (Array_from text) with
          | inl clearedText => clearedText
          | inr clearedText => clearedText
          end)
    with (collected (forLoop clearBody 0 None 0 None (Array_from text))).
  rewrite clearLoop_kept. reflexivity.
Qed.

(** X13: [clearTextUntilComment] returns [null] exactly for the empty text
    and for a text that begins with a comment marker. *)
Theorem clearTextUntilComment_null (text : jsstring) :
  clearTextUntilComment text = None <-> text = [] \/ beginsComment text = true.
Proof.
  rewrite clearTextUntilComment_kept. unfold beginsComment.
  destruct (Array_from text) as [|c tl] eqn:E; cbn [kept].
  - split; [left; apply Array_from_nil, E | reflexivity].
  - destruct (startsComment c (hd_error tl)); split; auto; try discriminate.
    intros [->|]; discriminate.
Qed.

(** X14: otherwise it returns the front of the text, up to the end of the
    text or to the first comment marker, and clearing that again gives the
    same. *)
Theorem clearTextUntilComment_prefix (text cleared : jsstring) :
  clearTextUntilComment text = Some cleared ->
  (exists rest, text = cleared ++ rest /\ (rest = [] \/ beginsComment rest = true))
  /\ clearTextUntilComment cleared = Some cleared.
Proof.
  rewrite clearTextUntilComment_kept.
  destruct (kept (Array_from text)) as [|n] eqn:En; [discriminate|].
  intros H.
  assert (Hc : cleared = concat (firstn (S n) (Array_from text))) by congruence.
  clear H; subst cleared. split.
  - exists (concat (skipn (S n) (Array_from text))); split.
    + transitivity (concat (firstn (S n) (Array_from text) ++ skipn (S n) (Array_from text)));
        [rewrite firstn_skipn; symmetry; apply concat_Array_from | apply concat_app].
    + pose proof (kept_rest (Array_from text)) as Hr. rewrite En in Hr.
      destruct Hr as [->|(c & tl & E & Hs)]; [left; reflexivity|].
      right. unfold beginsComment.
      pose proof (Array_from_concat_skipn text (S n)) as X.
      unfold jsstring in *. rewrite X, E. exact Hs.
  - pose proof (kept_prefix (Array_from text)) as Hp. rewrite En in Hp.
    rewrite clearTextUntilComment_kept.
    pose proof (Array_from_concat_firstn text (S n)) as X.
    unfold jsstring in *. rewrite X, Hp.
    rewrite firstn_firstn, Nat.min_id. reflexivity.
Qed.

Lemma clearTextUntilComment_prefix_witness :
  (exists rest, js "SELECT 1 - 2 # x" = js "SELECT 1 - 2 " ++ rest
                /\ (rest = [] \/ beginsComment rest = true))
  /\ clearTextUntilComment (js "SELECT 1 - 2 ") = Some (js "SELECT 1 - 2 ").
Proof.
  apply (@clearTextUntilComment_prefix (js "SELECT 1 - 2 # x")). reflexivity.
Defined.

Lemma parse_app_delimiter_aux (a b : jsstring) :
  endsOutside a -> Array_from a = List.map (fun u => [u]) a ->
  exists xa yb, Rev2.parse a = Some xa /\ Rev2.parse b = Some yb
                /\ Rev2.parse (a ++ SEMICOLON ++ b) = Some (xa ++ yb).
Proof.
  intros Ha Hbmp.
  destruct (@parseLoop_enough_fuel (S (length b)) b []) as [yb Hb]; [lia|].
  exists (if isBlank a then [] else [trim a]), yb.
  assert (Hpa : Rev2.parse a = Some (if isBlank a then [] else [trim a])).
  { unfold Rev2.parse, parse. apply parseLoop_quiet, endsOutside_quiet, Ha. }
  split; [exact Hpa|]. split; [exact Hb|].
  unfold Rev2.parse at 1; unfold parse. cbn [parseLoop].
  fold Rev2.getStatements. rewrite getStatements_app_delimiter by assumption.
  cbn [fst snd]. rewrite isBlank_trim.
  destruct (isBlank b) eqn:Eb.
  - assert (yb = []) as ->.
    { pose proof (parse_blank _ Eb) as X. unfold Rev2.parse, parse in X. congruence. }
    rewrite app_nil_r. destruct (isBlank a); reflexivity.
  - rewrite parseLoop_acc. rewrite parse_fuel by (rewrite !length_app; simpl; lia).
    unfold Rev2.parse, parse. rewrite Hb.
    destruct (isBlank a); reflexivity.
Qed.


(** ** The driver *)

Section DriverFacts.
Variables Db Result Failure : Type.
Variable upperCaseOf : jsstring -> jsstring.
Variables executeQuery executeDml : Db -> jsstring -> Db * (Result + Failure).
Variable executeDdl : option (Db -> jsstring -> Db * (Result + Failure)).

Abbreviation run := (queryLoop upperCaseOf executeQuery executeDml executeDdl).

Lemma queryLoop_app (xs ys : list jsstring) : forall db acc,
  run (xs ++ ys) db acc = andThen (run xs db acc) (run ys).
Proof.
  induction xs as [|sql xs IH]; intros db acc; cbn [app queryLoop]; [reflexivity|].
  assert (Hp : forall outcome,
             pushAwait outcome acc (run (xs ++ ys))
             = andThen (pushAwait outcome acc (run xs)) (run ys)).
  { intros [db' [r|f]]; cbn [pushAwait andThen]; [apply IH | reflexivity]. }
  destruct (getStatementType upperCaseOf sql); try reflexivity; try apply Hp.
  destruct executeDdl; [apply Hp | reflexivity].
Qed.

Lemma queryLoop_acc (xs : list jsstring) : forall db acc,
  run xs db acc = andThen (run xs db []) (fun db' r => (db', inl (acc ++ r))).
Proof.
  induction xs as [|sql xs IH]; intros db acc; cbn [queryLoop andThen].
  - rewrite app_nil_r; reflexivity.
  - assert (Hp : forall outcome,
               pushAwait outcome acc (run xs)
               = andThen (pushAwait outcome [] (run xs))
                         (fun db' r => (db', inl (acc ++ r)))).
    { intros [db' [r|f]]; cbn [pushAwait andThen app]; [|reflexivity].
      rewrite (IH db' (acc ++ [r])), (IH db' [r]).
      destruct (run xs db' []) as [db2 [rs|e]]; cbn [andThen]; [|reflexivity].
      rewrite <- app_assoc; reflexivity. }
    destruct (getStatementType upperCaseOf sql); try reflexivity; try apply Hp.
    destruct executeDdl; [apply Hp | reflexivity].
Qed.

Lemma queryLoop_unsupported (sql : jsstring) (post : list jsstring) db acc :
  unsupported upperCaseOf executeDdl sql -> run (sql :: post) db acc = (db, inr (Unsupported sql)).
Proof.
  intros [H|[H Hd]]; cbn [queryLoop]; rewrite H; [reflexivity|].
  rewrite Hd; reflexivity.
Qed.

Lemma queryLoop_success (xs : list jsstring) : forall db acc db' results,
  run xs db acc = (db', inl results) ->
  length results = length acc + length xs /\ Forall (fun sql => ~ unsupported upperCaseOf executeDdl sql) xs.
Proof.
  induction xs as [|sql xs IH]; intros db acc db' results; cbn [queryLoop].
  - intros H; injection H as <- <-. split; [simpl; lia | constructor].
  - assert (Hp : forall outcome,
               pushAwait outcome acc (run xs) = (db', inl results) ->
               length results = length acc + length (sql :: xs)
               /\ Forall (fun sql => ~ unsupported upperCaseOf executeDdl sql) xs).
    { intros [db1 [r|f]]; cbn [pushAwait]; [|discriminate].
      intros H; apply IH in H as [Hl Hf]. rewrite length_app in Hl; simpl in *.
      split; [lia | exact Hf]. }
    destruct (getStatementType upperCaseOf sql) eqn:Et; try discriminate.
    + intros H; apply Hp in H as [Hl Hf]. split; [exact Hl|].
      constructor; [|exact Hf]. intros [E|[E _]]; congruence.
    + intros H; apply Hp in H as [Hl Hf]. split; [exact Hl|].
      constructor; [|exact Hf]. intros [E|[E _]]; congruence.
    + destruct executeDdl eqn:Ed; [|discriminate].
      intros H; apply Hp in H as [Hl Hf]. split; [exact Hl|].
      constructor; [|exact Hf]. intros [E|[_ E]]; congruence.
Qed.

Abbreviation queryWith parse :=
  (query parse upperCaseOf executeQuery executeDml executeDdl).

(** X15: [query] stops at the first statement it cannot run, with the error
    that names it; the statements ahead of it have been run by then and
    the database is as they left it, the statements after it are not run. *)
Theorem query_stops_at_unsupported (parse : jsstring -> option (list jsstring))
        (db db1 : Db) (queries : jsstring) (pre post : list jsstring) (sql : jsstring)
        (results : list Result) :
  parse queries = Some (pre ++ sql :: post) ->
  run pre db [] = (db1, inl results) ->
  unsupported upperCaseOf executeDdl sql ->
  queryWith parse db queries = Some (db1, inr (Unsupported sql)).
Proof.
  intros Hp Hpre Hu. unfold query. rewrite Hp. f_equal.
  rewrite queryLoop_app, Hpre. cbn [andThen].
  apply queryLoop_unsupported, Hu.
Qed.

(** X16: when [query] returns results, every statement of the script was
    one it can run and there is one result for each. *)
Theorem query_success (parse : jsstring -> option (list jsstring))
        (db db' : Db) (queries : jsstring) (results : list Result) :
  queryWith parse db queries = Some (db', inl results) ->
  exists statements,
    parse queries = Some statements
    /\ length results = length statements
    /\ Forall (fun sql => ~ unsupported upperCaseOf executeDdl sql) statements.
Proof.
  unfold query. destruct (parse queries) as [statements|]; [|discriminate].
  intros H; injection H as H. exists statements; split; [reflexivity|].
  apply queryLoop_success in H. exact H.
Qed.

(** X17: under the conditions of X3, running the script [a;b] is running
    [a] and then, on the database it leaves, [b]; the results are those of
    [a] followed by those of [b], and the first failure ends the run. *)
Theorem query_script_composition (db : Db) (a b : jsstring) :
  endsOutside a -> Array_from a = List.map (fun u => [u]) a ->
  queryWith Rev2.parse db (a ++ SEMICOLON ++ b)
  = match queryWith Rev2.parse db a with
    | Some (db1, inl first) =>
        option_map (fun second => andThen second (fun db2 rest => (db2, inl (first ++ rest))))
                   (queryWith Rev2.parse db1 b)
    | other => other
    end.
Proof.
  intros Ha Hbmp.
  destruct (@parse_app_delimiter_aux a b Ha Hbmp) as (xa & yb & Hpa & Hpb & Hpab).
  unfold query. rewrite Hpa, Hpb, Hpab. rewrite queryLoop_app.
  destruct (run xa db []) as [db1 [first|e]]; cbn [andThen option_map]; [|reflexivity].
  f_equal. apply queryLoop_acc.
Qed.
End DriverFacts.

Lemma query_stops_at_unsupported_witness :
  query Rev2.parse upperCaseLatin logExecute logExecute None []
        (js "select 1; explain x; delete from t")
  = Some ([js "select 1"], inr (Unsupported (js "explain x"))).
Proof.
  apply (@query_stops_at_unsupported _ _ _ upperCaseLatin logExecute logExecute None
           Rev2.parse [] [js "select 1"] (js "select 1; explain x; delete from t")
           [js "select 1"] [js "delete from t"] (js "explain x") [js "select 1"]);
    [reflexivity | reflexivity | left; reflexivity].
Defined.

Lemma query_success_witness :
  exists statements,
    Rev2.parse (js "select 1; delete from t") = Some statements
    /\ length [js "select 1"; js "delete from t"] = length statements
    /\ Forall (fun sql => ~ unsupported upperCaseLatin
                            (@None (list jsstring -> jsstring
                                    -> list jsstring * (jsstring + unit))) sql)
              statements.
Proof.
  apply (@query_success _ _ _ upperCaseLatin logExecute logExecute None Rev2.parse
           [] [js "select 1"; js "delete from t"] (js "select 1; delete from t")).
  reflexivity.
Defined.

Lemma query_script_composition_witness :
  query Rev2.parse upperCaseLatin logExecute logExecute None []
        (js "select ';'" ++ SEMICOLON ++ js " delete from t")
  = Some ([js "select ';'"; js "delete from t"],
          inl [js "select ';'"; js "delete from t"]).
Proof.
  rewrite (@query_script_composition _ _ _ upperCaseLatin logExecute logExecute None
             [] (js "select ';'") (js " delete from t") ltac:(vm_compute; auto) eq_refl).
  reflexivity.
Defined.
